(** * lineage/utils.py: a shallow embedding and its verified properties

    The module [lineage.utils] holds four small utilities:
    - [Parallelizer], which maps a function over a list of tasks, either in a
      [multiprocessing.Pool] or with the builtin [map];
    - the metaclass [Singleton];
    - [create_dir], which wraps [os.makedirs];
    - [save_df_as_csv], which writes a [pandas.DataFrame] below a header
      comment through [atomicwrites.atomic_write].

    Python code is embedded as functions in a state-and-exception monad.
    The library calls the module makes (the pool, the file system, the CSV
    writer) are given executable models next to the code that calls them;
    each model says which library routine it stands for. *)

From stdpp Require Import gmap strings list fin_maps sorting.
From Stdlib Require Import ZArith Ascii.

Local Open Scope string_scope.
Local Open Scope nat_scope.
Local Open Scope list_scope.

(** ** Exceptions, outcomes and the monad of effectful Python code *)

(** [errno] values of the [OSError]s met below. *)
Inductive errno := ENOENT | EEXIST | ENOTDIR | EISDIR | EACCES.

(** The exceptions of the model.  [OSError EEXIST] is Python's
    [FileExistsError], [OSError ENOENT] its [FileNotFoundError], and so on.
    [KeyboardInterrupt] derives from [BaseException] only, so a handler
    [except Exception] lets it through. *)
Inductive exn :=
| ValueError (msg : string)
| TypeError (msg : string)
| OSError (code : errno) (filename : string)
| RuntimeError (msg : string)
| KeyboardInterrupt.

Global Instance errno_eq_dec : EqDecision errno.
Proof. solve_decision. Defined.
Global Instance exn_eq_dec : EqDecision exn.
Proof. solve_decision. Defined.

(** [isinstance(e, Exception)]. *)
Definition is_Exception (e : exn) : bool :=
  match e with
  | KeyboardInterrupt => false
  | _ => true
  end.

(** [isinstance(e, OSError)]. *)
Definition is_OSError (e : exn) : bool :=
  match e with
  | OSError _ _ => true
  | _ => false
  end.

(** [isinstance(e, FileExistsError)]. *)
Definition is_FileExistsError (e : exn) : bool :=
  match e with
  | OSError EEXIST _ => true
  | _ => false
  end.

Definition errno_str (c : errno) : string :=
  match c with
  | ENOENT => "[Errno 2] No such file or directory"
  | EEXIST => "[Errno 17] File exists"
  | ENOTDIR => "[Errno 20] Not a directory"
  | EISDIR => "[Errno 21] Is a directory"
  | EACCES => "[Errno 13] Permission denied"
  end.

(** [str(e)], what [print(err)] shows. *)
Definition exn_str (e : exn) : string :=
  match e with
  | ValueError msg | TypeError msg | RuntimeError msg => msg
  | OSError c f => errno_str c +:+ ": '" +:+ f +:+ "'"
  | KeyboardInterrupt => ""
  end.

(** A call either returns a value or raises. *)
Inductive outcome (A : Type) :=
| Returned (a : A)
| Raised (e : exn).
Arguments Returned {A} a.
Arguments Raised {A} e.

Definition is_Returned {A} (o : outcome A) : bool :=
  match o with Returned _ => true | Raised _ => false end.

(** Effectful code over a state [S]: the state after the call and its
    outcome.  A raising call keeps the state it had reached. *)
Definition M (S A : Type) : Type := S → S * outcome A.

Definition ret {S A} (a : A) : M S A := λ s, (s, Returned a).

Definition raise {S A} (e : exn) : M S A := λ s, (s, Raised e).

Definition bind {S A B} (m : M S A) (k : A → M S B) : M S B :=
  λ s, match m s with
       | (s', Returned a) => k a s'
       | (s', Raised e) => (s', Raised e)
       end.

(** [try: body / except E as err: handler(err)], [catches] deciding
    [isinstance(err, E)]. *)
Definition try_except {S A} (catches : exn → bool) (body : M S A)
    (handler : exn → M S A) : M S A :=
  λ s, match body s with
       | (s', Returned a) => (s', Returned a)
       | (s', Raised e) => if catches e then handler e s' else (s', Raised e)
       end.

Notation "'do' x <- m ; k" := (bind m (λ x, k))
  (at level 10, x name, m at level 100, k at level 200).
Notation "'run' m ; k" := (bind m (λ _, k))
  (at level 10, m at level 100, k at level 200).

(** ** [multiprocessing.Pool] (Python standard library)

    The part of CPython's [multiprocessing/pool.py] that [Pool(n)],
    [Pool.map] and leaving the [with] block go through.  Workers run the
    task function in their own processes; what the parent sees of a task is
    its outcome, so the task function is a function to [outcome].  The order
    in which the chunks of one [map] come back is the scheduler's: the world
    gives every chunk a latency, and chunks complete by increasing latency. *)
Module Pool.

Inductive pool_event :=
| Spawned (workers : nat)      (* a pool with that many worker processes was started *)
| Terminated (workers : nat).  (* the pool was terminated *)

Global Instance pool_event_eq_dec : EqDecision pool_event.
Proof. solve_decision. Defined.

Record world := World {
  cpu_count : option Z;        (* what [os.cpu_count()] returns *)
  latency : nat → nat;         (* when the result of chunk [i] reaches the parent *)
  pool_log : list pool_event   (* pools started and terminated so far *)
}.

Definition log_event (ev : pool_event) : M world unit :=
  λ w, (World (cpu_count w) (latency w) (pool_log w ++ [ev]), Returned tt).

(** Chunk [i] is back no later than chunk [j]. *)
Definition earlier (w : world) : relation nat :=
  λ i j, latency w i ≤ latency w j.

Global Instance earlier_dec (w : world) : RelDecision (earlier w).
Proof. intros i j. unfold earlier. apply _. Defined.

(** A pool object; [_processes] is [len(self._pool)]. *)
Record t := Build { _processes : nat }.

(** [Pool.__init__(processes)]:
<<
    if processes is None:
        processes = os.cpu_count() or 1
    if processes < 1:
        raise ValueError("Number of processes must be at least 1")
    ...
    self._repopulate_pool()
>> *)
Definition effective_processes (w : world) (processes : option Z) : Z :=
  match processes with
  | None => match cpu_count w with
            | Some c => if (c =? 0)%Z then 1%Z else c
            | None => 1%Z
            end
  | Some p => p
  end.

Definition __init__ (processes : option Z) : M world t :=
  λ w, let processes := effective_processes w processes in
       if (processes <? 1)%Z
       then raise (ValueError "Number of processes must be at least 1") w
       else (run log_event (Spawned (Z.to_nat processes));
             ret (Build (Z.to_nat processes))) w.

(** [Pool.__exit__] calls [terminate()]. *)
Definition __exit__ (self : t) : M world unit :=
  log_event (Terminated (_processes self)).

(** [with pool as p: body]: the pool is terminated on every way out. *)
Definition with_pool {R} (self : t) (body : M world R) : M world R :=
  λ w, match body w with
       | (w', r) => (fst (__exit__ self w'), r)
       end.

Section Map.
Context {A B : Type}.
(** Python's [None], with which the result list is first filled. *)
Variable pyNone : B.

(** [mapstar]: a worker runs [list(map(f, chunk))]; the first task that
    raises ends the chunk. *)
Fixpoint mapstar (f : A → outcome B) (chunk : list A) : outcome (list B) :=
  match chunk with
  | [] => Returned []
  | x :: chunk' =>
      match f x with
      | Raised e => Raised e
      | Returned y =>
          match mapstar f chunk' with
          | Raised e => Raised e
          | Returned ys => Returned (y :: ys)
          end
      end
  end.

(** [chunksize, extra = divmod(len(iterable), len(self._pool) * 4)];
    [if extra: chunksize += 1]; [if len(iterable) == 0: chunksize = 0].
    A pool has at least one worker, so the divisor is never zero. *)
Definition map_chunksize (len workers : nat) : nat :=
  let chunksize := len / (workers * 4) in
  let extra := len mod (workers * 4) in
  let chunksize := if extra =? 0 then chunksize else chunksize + 1 in
  if len =? 0 then 0 else chunksize.

(** [Pool._get_tasks]: [x = tuple(islice(it, size))] until [x] is empty.
    Every round but the last consumes an element, so [fuel] rounds with
    [fuel] the length of [it] reach the end: the chunks then hold every
    element ([get_tasks_concat]). *)
Fixpoint get_tasks (fuel size : nat) (it : list A) : list (list A) :=
  match fuel with
  | 0 => []
  | S fuel' =>
      match take size it with
      | [] => []
      | x => x :: get_tasks fuel' size (drop size it)
      end
  end.

(** What [MapResult._value] holds: the result list, or the exception kept. *)
Inductive map_value :=
| VList (l : list B)
| VExc (e : exn).

Record MapResult := Build_MapResult {
  _success : bool;
  _value : map_value;
  _chunksize : nat;
  _number_left : nat
}.

(** [MapResult.__init__]: [self._value = [None] * length]. *)
Definition MapResult_init (chunksize length : nat) : MapResult :=
  {| _success := true;
     _value := VList (replicate length pyNone);
     _chunksize := chunksize;
     _number_left := if chunksize =? 0 then 0
                     else length / chunksize + (if length mod chunksize =? 0 then 0 else 1) |}.

(** [l[a:b] = new] for [a <= b]. *)
Definition slice_assign (a b : nat) (new l : list B) : list B :=
  take a l ++ new ++ drop b l.

(** [MapResult._set(i, (success, result))]: a chunk of results is stored
    at the place of its tasks; of the exceptions only the first to arrive
    is kept. *)
Definition MapResult_set (i : nat) (success_result : outcome (list B))
    (self : MapResult) : MapResult :=
  let left := pred (_number_left self) in
  match success_result, _success self with
  | Returned result, true =>
      let value :=
        match _value self with
        | VList l => VList (slice_assign (i * _chunksize self) ((i + 1) * _chunksize self) result l)
        | VExc e => VExc e
        end in
      Build_MapResult true value (_chunksize self) left
  | Raised e, true =>
      Build_MapResult false (VExc e) (_chunksize self) left
  | _, false =>
      Build_MapResult false (_value self) (_chunksize self) left
  end.

(** [ApplyResult.get()] once every chunk is back:
    [if self._success: return self._value / else: raise self._value]. *)
Definition MapResult_get (self : MapResult) : outcome (list B) :=
  match _success self, _value self with
  | true, VList l => Returned l
  | _, VExc e => Raised e
  | false, VList _ => Raised (TypeError "exceptions must derive from BaseException")
  end.

(** The order in which [n] chunks complete: by increasing latency. *)
Definition completion_order (w : world) (n : nat) : list nat :=
  merge_sort (earlier w) (seq 0 n).

(** [Pool.map(f, iterable)]: split into chunks, let the workers run them,
    store each chunk as it arrives, then [get()]. *)
Definition map (self : t) (f : A → outcome B) (iterable : list A) : M world (list B) :=
  λ w,
    let chunksize := map_chunksize (length iterable) (_processes self) in
    let task_batches := get_tasks (length iterable) chunksize iterable in
    let result := MapResult_init chunksize (length iterable) in
    let result :=
      foldl (λ r i, MapResult_set i (mapstar f (default [] (task_batches !! i))) r)
            result (completion_order w (length task_batches)) in
    (w, MapResult_get result).

(** The state of a [MapResult] in which nothing has failed and the
    results of the chunks in [done] are at the places of their tasks,
    [g] giving the result of a task and [c] being the chunk size. *)
Definition stored (g : A → B) (tasks : list A) (c : nat) (done : list nat)
    (r : MapResult) : Prop :=
  _success r = true ∧ _chunksize r = c ∧
  ∃ v, _value r = VList v ∧ length v = length tasks ∧
    ∀ i j t, i ∈ done → i * c ≤ j < i * c + c → tasks !! j = Some t →
             v !! j = Some (g t).

(** What a [MapResult] keeps of a failure: an exception it keeps was raised
    by one of the tasks, and once it has failed it keeps an exception. *)
Definition kept_from_task (f : A → outcome B) (tasks : list A) (r : MapResult) : Prop :=
  (∀ e, _value r = VExc e → ∃ t, t ∈ tasks ∧ f t = Raised e) ∧
  (_success r = false → ∃ e, _value r = VExc e).
End Map.

End Pool.

(** ** [class Parallelizer] *)
Module Parallelizer.

Record t := Build {
  _parallelize : bool;
  _processes : option Z
}.

(** [def __init__(self, parallelize=True, processes=os.cpu_count())]: both
    arguments are stored as given. *)
Definition __init__ (parallelize : bool) (processes : option Z) : M Pool.world t :=
  ret {| _parallelize := parallelize; _processes := processes |}.

(** The defaults: [parallelize=True], [processes=os.cpu_count()]. *)
Definition default : M Pool.world t :=
  λ w, __init__ true (Pool.cpu_count w) w.

Section Call.
Context {A B : Type}.
Variable pyNone : B.

(** What [__call__] returns: the list built by [Pool.map], or the lazy
    iterator built by the builtin [map], which has applied [f] to nothing
    yet. *)
Inductive result :=
| PyList (l : list B)
| PyMap (f : A → outcome B) (tasks : list A).

(** [list(r)]: the elements of a result in order; consuming a [map]
    object calls [f] on the tasks one after the other. *)
Definition to_list (r : result) : outcome (list B) :=
  match r with
  | PyList l => Returned l
  | PyMap f tasks => Pool.mapstar f tasks
  end.

(**
<<
  def __call__(self, f, tasks):
      if self._parallelize:
          with Pool(self._processes) as p:
              return p.map(f, tasks)
      else:
          return map(f, tasks)
>> *)
Definition __call__ (self : t) (f : A → outcome B) (tasks : list A) : M Pool.world result :=
  if _parallelize self then
    do p <- Pool.__init__ (_processes self);
    Pool.with_pool p (do l <- Pool.map pyNone p f tasks; ret (PyList l))
  else
    ret (PyMap f tasks).

(** The elements the caller gets from a call: [list(self(f, tasks))]. *)
Definition elements (self : t) (f : A → outcome B) (tasks : list A) (w : Pool.world)
    : outcome (list B) :=
  match __call__ self f tasks w with
  | (_, Returned r) => to_list r
  | (_, Raised e) => Raised e
  end.

(** Two outcomes agree: the same list on both sides, or an exception on
    both sides. *)
Definition outcome_agree (o1 o2 : outcome (list B)) : Prop :=
  match o1, o2 with
  | Returned l1, Returned l2 => l1 = l2
  | Raised _, Raised _ => True
  | _, _ => False
  end.

(** A call on no task that returns no result and starts no pool. *)
Definition empty_call_without_pool (self : t) (f : A → outcome B) (w : Pool.world)
    : Prop :=
  ∃ w' r, __call__ self f [] w = (w', Returned r) ∧ to_list r = Returned [] ∧
          Pool.pool_log w' = Pool.pool_log w.

(** A parallel runner built with [processes] that holds a worker count of
    at least one and whose call returns. *)
Definition clamped_call_returns (processes : option Z) (f : A → outcome B)
    (tasks : list A) (w : Pool.world) : Prop :=
  ∃ w1 self, __init__ true processes w = (w1, Returned self) ∧
    (1 ≤ Pool.effective_processes w1 (_processes self))%Z ∧
    ∃ w2 r, __call__ self f tasks w1 = (w2, Returned r).
End Call.

(** A machine with four processors whose workers finish in the reverse of
    the order in which the chunks were handed out. *)
Definition reversing : Pool.world := Pool.World (Some 4%Z) (λ i, 100 - i) [].

(** A task function that always returns. *)
Definition square (x : nat) : outcome nat := Returned (x * x).

(** A task function that raises on two of its arguments. *)
Definition picky (x : nat) : outcome nat :=
  if x =? 3 then Raised (ValueError "three")
  else if x =? 17 then Raised (ValueError "seventeen")
  else Returned (x * x).

End Parallelizer.

(** ** [class Singleton(type)] *)
Module Singleton.

(** A class is known by its name; an object by its address on the heap.
    [Args] stands for the [*args, **kwargs] of a constructor call.  Classes
    are taken one by one: an object is an instance of the class it was built
    from, not of the bases of that class. *)
Section Meta.
Context {Args : Type}.

(** How the constructor of a class behaves on given arguments: it returns
    ([None]) or raises. *)
Variable constructor : string → Args → option exn.

Record object := Object {
  ob_class : string;
  ob_args : Args
}.

Record state := State {
  _instances : gmap string nat;     (* the dict [Singleton._instances] *)
  heap : list object;               (* every object built so far, by address *)
  constructed : list (string * Args)  (* every constructor call made so far *)
}.

Definition initial : state := State ∅ [] [].

(** [type.__call__(cls, *args, **kwargs)]: run the constructor; the new
    object gets a fresh address. *)
Definition type_call (cls : string) (args : Args) : M state nat :=
  λ st,
    let log := constructed st ++ [(cls, args)] in
    match constructor cls args with
    | Some e => (State (_instances st) (heap st) log, Raised e)
    | None =>
        (State (_instances st) (heap st ++ [Object cls args]) log,
         Returned (length (heap st)))
    end.

(**
<<
  def __call__(cls, *args, **kwargs):
      if cls not in cls._instances:
          cls._instances[cls] = super(Singleton, cls).__call__( *args, **kwargs)
      return cls._instances[cls]
>> *)
Definition __call__ (cls : string) (args : Args) : M state nat :=
  λ st,
    match _instances st !! cls with
    | Some o => (st, Returned o)
    | None =>
        (do o <- type_call cls args;
         λ st', (State (<[cls := o]> (_instances st')) (heap st') (constructed st'),
                 Returned o)) st
    end.

(** A process: instantiations one after the other, from the state [st];
    an instantiation that raises is caught by its caller. *)
Definition exec (calls : list (string * Args)) (st : state) : state :=
  foldl (λ st call, fst (__call__ call.1 call.2 st)) st calls.

(** The live instances of a class, by address. *)
Definition instances_of (cls : string) (st : state) : list nat :=
  filter (λ o, ob_class <$> heap st !! o = Some cls) (seq 0 (length (heap st))).

(** The constructor calls made for a class. *)
Definition constructions_of (cls : string) (st : state) : list (string * Args) :=
  filter (λ call, call.1 = cls) (constructed st).

(** The registry and the heap tell the same story: a registered instance
    is an object of its class, and every object is the registered instance
    of its class. *)
Definition registry_sound (st : state) : Prop :=
  (∀ cls o, _instances st !! cls = Some o →
            ∃ args, heap st !! o = Some (Object cls args)) ∧
  (∀ o ob, heap st !! o = Some ob → _instances st !! ob_class ob = Some o).

(** A class is registered when one of its constructor calls has returned,
    and only then. *)
Definition registered_when_constructed (st : state) : Prop :=
  ∀ cls, is_Some (_instances st !! cls) ↔
         ∃ args, (cls, args) ∈ constructed st ∧ constructor cls args = None.
End Meta.

(** A constructor that refuses the argument [0]. *)
Definition refuses_zero (cls : string) (n : nat) : option exn :=
  if n =? 0 then Some (ValueError "zero") else None.

End Singleton.

(** ** The file system and [os], [os.path] (Python standard library)

    A path is the list of its components, innermost first, so that
    [os.path.split] is pattern matching: ["a/b/c"] is [["c"; "b"; "a"]] and
    the root is [[]].  The working directory of the process is the root of
    the tree; empty and ["."] components are dropped and [".."] is not
    interpreted.  There are no symbolic links. *)
Module Os.

Inductive node :=
| File (content : string)
| Dir (writable : bool).

Global Instance node_eq_dec : EqDecision node.
Proof. solve_decision. Defined.

Abbreviation filesystem := (gmap (list string) node).

Definition nl : string := String "010"%char "".

(** The components of a path string, innermost first. *)
Fixpoint split_components (s cur : string) (acc : list string) : list string :=
  match s with
  | EmptyString => cur :: acc
  | String c s' =>
      if Ascii.eqb c "/"%char then split_components s' "" (cur :: acc)
      else split_components s' (cur +:+ String c "") acc
  end.

Definition proper_component (c : string) : bool :=
  negb (String.eqb c "") && negb (String.eqb c ".").

(** The file a path string names; the empty string names none. *)
Definition resolve (s : string) : option (list string) :=
  if String.eqb s "" then None
  else Some (List.filter proper_component (split_components s "" [])).

(** A path as [str(err)] shows it. *)
Definition render (p : list string) : string :=
  "/" +:+ String.concat "/" (rev p).

(** What is at a path; the root is a writable directory. *)
Definition stat (fs : filesystem) (p : list string) : option node :=
  match p with
  | [] => Some (Dir true)
  | _ => fs !! p
  end.

Definition exists_path (fs : filesystem) (p : list string) : bool :=
  match stat fs p with Some _ => true | None => false end.

Definition isdir_path (fs : filesystem) (p : list string) : bool :=
  match stat fs p with Some (Dir _) => true | _ => false end.

(** [os.mkdir]: the parent must be a directory one may write to, and the
    name must be free. *)
Definition mkdir_path (p : list string) : M filesystem unit :=
  λ fs,
    match p with
    | [] => (fs, Raised (OSError EEXIST (render p)))
    | _ :: parent =>
        match stat fs parent with
        | None => (fs, Raised (OSError ENOENT (render p)))
        | Some (File _) => (fs, Raised (OSError ENOTDIR (render p)))
        | Some (Dir writable) =>
            match fs !! p with
            | Some _ => (fs, Raised (OSError EEXIST (render p)))
            | None =>
                if writable then (<[p := Dir true]> fs, Returned tt)
                else (fs, Raised (OSError EACCES (render p)))
            end
        end
    end.

(** The end of [os.makedirs(name, exist_ok=True)]:
<<
    try:
        mkdir(name, mode)
    except OSError:
        if not exist_ok or not path.isdir(name):
            raise
>> *)
Definition mkdir_exist_ok (name : list string) : M filesystem unit :=
  try_except is_OSError (mkdir_path name)
    (λ e fs, if isdir_path fs name then ret tt fs else raise e fs).

(** [os.makedirs(name, exist_ok=True)]:
<<
    head, tail = path.split(name)
    ...
    if head and tail and not path.exists(head):
        try:
            makedirs(head, exist_ok=exist_ok)
        except FileExistsError:
            pass
        ...
    try: mkdir(name, mode) ...
>> *)
Fixpoint makedirs_path (name : list string) : M filesystem unit :=
  match name with
  | [] => mkdir_exist_ok []
  | _ :: head =>
      run (λ fs, if negb (exists_path fs head)
                 then try_except is_FileExistsError (makedirs_path head) (λ _, ret tt) fs
                 else ret tt fs);
      mkdir_exist_ok name
  end.

(** [fs'] is [fs] with, possibly, new directories. *)
Definition extends (fs fs' : filesystem) : Prop :=
  ∀ q, fs' !! q = fs !! q ∨ (fs !! q = None ∧ fs' !! q = Some (Dir true)).

(** Nothing stands in the way of a path: each of the path and the paths
    above it is free or is a directory that may be written. *)
Definition clear (fs : filesystem) (name : list string) : Prop :=
  ∀ q, q `suffix_of` name → stat fs q = None ∨ stat fs q = Some (Dir true).

(** A tree in which whatever has a name lies in a directory. *)
Definition well_formed (fs : filesystem) : Prop :=
  ∀ c p, is_Some (fs !! (c :: p)) → isdir_path fs p = true.

(** Whether a directory is at the path or can be made there: the path is a
    directory, or it is free and the nearest path above it that is taken is
    a directory that may be written. *)
Fixpoint can_make (fs : filesystem) (p : list string) : bool :=
  match p with
  | [] => true
  | _ :: head =>
      match fs !! p with
      | Some (Dir _) => true
      | Some (File _) => false
      | None =>
          match stat fs head with
          | Some (Dir writable) => writable
          | Some (File _) => false
          | None => can_make fs head
          end
      end
  end.

(** The regular files of [fs] and [fs'] are the same, with the same text. *)
Definition same_files (fs fs' : filesystem) : Prop :=
  ∀ q text, fs !! q = Some (File text) ↔ fs' !! q = Some (File text).

(** [datetime.datetime]. *)
Record datetime := Datetime {
  year : nat; month : nat; day : nat;
  hour : nat; minute : nat; second : nat
}.

Definition digit (d : nat) : string :=
  String (Ascii.ascii_of_nat (48 + d mod 10)) "".

Definition pad2 (n : nat) : string := digit (n / 10) +:+ digit n.
Definition pad4 (n : nat) : string := pad2 (n / 100) +:+ pad2 n.

(** [d.strftime("%Y-%m-%d %H:%M:%S")]. *)
Definition strftime (d : datetime) : string :=
  pad4 (year d) +:+ "-" +:+ pad2 (month d) +:+ "-" +:+ pad2 (day d) +:+ " " +:+
  pad2 (hour d) +:+ ":" +:+ pad2 (minute d) +:+ ":" +:+ pad2 (second d).

(** What a process sees: the files, what it has printed, the clock. *)
Record world := World {
  fs : filesystem;
  stdout : list string;
  clock : datetime
}.

Definition lift_fs {A} (m : M filesystem A) : M world A :=
  λ w, match m (fs w) with
       | (fs', r) => (World fs' (stdout w) (clock w), r)
       end.

Definition print (s : string) : M world unit :=
  λ w, (World (fs w) (stdout w ++ [s]) (clock w), Returned tt).

(** [datetime.datetime.utcnow()]. *)
Definition utcnow : M world datetime :=
  λ w, (w, Returned (clock w)).

(** [os.makedirs(name, exist_ok=True)] on a path string; the empty string
    names no file, so that [mkdir] raises [FileNotFoundError]. *)
Definition makedirs_fs (name : string) : M filesystem unit :=
  match resolve name with
  | None => raise (OSError ENOENT name)
  | Some p => makedirs_path p
  end.

Definition makedirs (name : string) : M world unit :=
  lift_fs (makedirs_fs name).

(** [os.path.exists]. *)
Definition path_exists (path : string) : M world bool :=
  λ w, (w, Returned (match resolve path with
                     | Some p => exists_path (fs w) p
                     | None => false
                     end)).

Definition ends_with_slash (s : string) : bool :=
  match rev (String.list_ascii_of_string s) with
  | c :: _ => Ascii.eqb c "/"%char
  | [] => false
  end.

(** [os.path.join(a, b)] of [posixpath]:
<<
    if b.startswith(sep): path = b
    elif not path or path.endswith(sep): path += b
    else: path += sep + b
>> *)
Definition path_join (a b : string) : string :=
  if String.prefix "/" b then b
  else if String.eqb a "" || ends_with_slash a then a +:+ b
  else a +:+ "/" +:+ b.

(** A path seen from the working directory, which is the root: the
    components from the root down, or ["."] for the root itself. *)
Definition relative (p : list string) : string :=
  match p with
  | [] => "."
  | _ => String.concat "/" (rev p)
  end.

(** [os.path.relpath(path)]:
    [if not path: raise ValueError("no path specified")]. *)
Definition path_relpath (path : string) : M world string :=
  match resolve path with
  | None => raise (ValueError "no path specified")
  | Some p => ret (relative p)
  end.

End Os.

(** ** [pandas.DataFrame] (library)

    A frame has an index, possibly named, named columns and rows of cells.
    A cell is the text the CSV writer puts for its value, or is missing
    ([NaN], [None]); how a single value is formatted and quoted is pandas's
    business and not modelled. *)
Module Pandas.

Record DataFrame := Build_DataFrame {
  index_name : option string;
  columns : list string;
  rows : list (string * list (option string))  (* index label, cells *)
}.

(** [len(df)]. *)
Definition len (df : DataFrame) : nat := length (rows df).

(** The header row: the index label first when the index is written. *)
Definition csv_header (sep : string) (index : bool) (df : DataFrame) : string :=
  String.concat sep ((if index then [default "" (index_name df)] else []) ++ columns df)
  +:+ Os.nl.

(** One data row; a missing cell is written as [na_rep]. *)
Definition csv_row (sep na_rep : string) (index : bool)
    (row : string * list (option string)) : string :=
  String.concat sep ((if index then [row.1] else []) ++ (default na_rep <$> row.2))
  +:+ Os.nl.

(** [df.to_csv(f, sep=sep, na_rep=na_rep, header=header, index=index)],
    writing to the open file [f]; the result is what [f] then holds.
    A separator that is not one character is refused. *)
Definition to_csv (df : DataFrame) (f : string) (sep na_rep : string)
    (header index : bool) : outcome string :=
  if String.length sep =? 1 then
    Returned (f +:+ (if header then csv_header sep index df else "")
                +:+ String.concat "" (csv_row sep na_rep index <$> rows df))
  else Raised (TypeError "delimiter must be a 1-character string").

End Pandas.

(** ** [atomicwrites.atomic_write] (library)

    [with atomic_write(path, mode="w", overwrite=True) as f: body] writes
    to a temporary file in the directory of [path] and renames it onto
    [path] when the body is done; when any step raises the temporary file is
    removed.  Other processes never see the temporary file, so it is left out
    of the tree: the block either puts the whole text at [path] or changes
    nothing. *)
Module Atomicwrites.

(** The body of the block is given by the text it leaves in the file, from
    the text the file holds when the block is entered, which is empty. *)
Definition atomic_write_path (p : list string) (body : string → outcome string)
    : M Os.filesystem unit :=
  λ fs,
    match p with
    | [] => (fs, Raised (OSError EISDIR (Os.render p)))
    | _ :: parent =>
        (* tempfile.mkstemp(dir=dirname(path)) *)
        match Os.stat fs parent with
        | None => (fs, Raised (OSError ENOENT (Os.render parent)))
        | Some (Os.File _) => (fs, Raised (OSError ENOTDIR (Os.render parent)))
        | Some (Os.Dir false) => (fs, Raised (OSError EACCES (Os.render parent)))
        | Some (Os.Dir true) =>
            match body "" with
            | Raised e => (fs, Raised e)          (* rollback: unlink the temporary file *)
            | Returned text =>
                (* commit: os.rename(temporary, path) *)
                match fs !! p with
                | Some (Os.Dir _) => (fs, Raised (OSError EISDIR (Os.render p)))
                | _ => (<[p := Os.File text]> fs, Returned tt)
                end
            end
        end
    end.

Definition atomic_write (path : string) (body : string → outcome string)
    : M Os.world unit :=
  Os.lift_fs (match Os.resolve path with
              | None => raise (OSError ENOENT path)
              | Some p => atomic_write_path p body
              end).

End Atomicwrites.

(** ** [create_dir] and [save_df_as_csv] *)
Module Utils.

Import Os.

(**
<<
    def create_dir(path):
        try:
            os.makedirs(path, exist_ok=True)
        except Exception as err:
            print(err)
            return False

        if os.path.exists(path):
            return True
        else:
            return False
>> *)
Definition create_dir (path : string) : M world bool :=
  do returned <-
    try_except is_Exception
      (run makedirs path; ret None)
      (λ err, run print (exn_str err); ret (Some false));
  match returned with
  | Some b => ret b
  | None =>
      do found <- path_exists path;
      if found then ret true else ret false
  end.

(** The values [save_df_as_csv] may get as [df]. *)
Inductive pyobj :=
| PyNone
| PyInt (n : Z)
| PyStr (s : string)
| PyDataFrame (df : Pandas.DataFrame).

(** The keyword arguments of [DataFrame.to_csv] that the model follows;
    [None] for one that the caller left out. *)
Record to_csv_kwargs := Kwargs {
  kw_sep : option string;
  kw_na_rep : option string;
  kw_header : option bool;
  kw_index : option bool
}.

Definition no_kwargs : to_csv_kwargs := Kwargs None None None None.

(** [isinstance(df, pd.DataFrame) and len(df) > 0]: the frame when the test
    holds. *)
Definition nonempty_frame (df : pyobj) : option Pandas.DataFrame :=
  match df with
  | PyDataFrame frame => if 0 <? Pandas.len frame then Some frame else None
  | _ => None
  end.

Section Save.
(** [lineage.__version__], set in the package's [__init__.py]. *)
Variable __version__ : string.

Definition provenance_line : string :=
  "# Generated by lineage v" +:+ __version__ +:+
  ", https://github.com/apriha/lineage" +:+ nl.

Definition timestamp_line (now : datetime) : string :=
  "# Generated at " +:+ strftime now +:+ " UTC" +:+ nl.

(** [df.to_csv(f, na_rep="--", **kwargs)]: a keyword given twice is a
    [TypeError]; the keywords left out take pandas's defaults. *)
Definition to_csv_call (df : Pandas.DataFrame) (f : string) (kwargs : to_csv_kwargs)
    : outcome string :=
  match kw_na_rep kwargs with
  | Some _ =>
      Raised (TypeError "to_csv() got multiple values for keyword argument 'na_rep'")
  | None =>
      Pandas.to_csv df f (default "," (kw_sep kwargs)) "--"
        (default true (kw_header kwargs)) (default true (kw_index kwargs))
  end.

(**
<<
  def save_df_as_csv(df, path, filename, comment="", **kwargs):
      if isinstance(df, pd.DataFrame) and len(df) > 0:
          try:
              if not create_dir(path):
                  return ""
              destination = os.path.join(path, filename)
              print("Saving " + os.path.relpath(destination))
              s = ("# Generated by lineage v{}, https://github.com/apriha/lineage\n"
                   "# Generated at {} UTC\n")
              s = s.format(lineage.__version__,
                           datetime.datetime.utcnow().strftime("%Y-%m-%d %H:%M:%S"))
              s += comment
              with atomic_write(destination, mode="w", overwrite=True) as f:
                  f.write(s)
                  df.to_csv(f, na_rep="--", **kwargs)
              return destination
          except Exception as err:
              print(err)
              return ""
      else:
          print("no data to save...")
          return ""
>> *)
Definition save_df_as_csv (df : pyobj) (path filename comment : string)
    (kwargs : to_csv_kwargs) : M world string :=
  match nonempty_frame df with
  | Some frame =>
      try_except is_Exception
        (do created <- create_dir path;
         if negb created then ret ""
         else
           let destination := path_join path filename in
           do shown <- path_relpath destination;
           run print ("Saving " +:+ shown);
           do now <- utcnow;
           let s := provenance_line +:+ timestamp_line now in
           let s := s +:+ comment in
           run Atomicwrites.atomic_write destination
                 (λ f, to_csv_call frame (f +:+ s) kwargs);
           ret destination)
        (λ err, run print (exn_str err); ret "")
  | None =>
      run print "no data to save..."; ret ""
  end.

(** The text [save_df_as_csv] hands to the file before the table. *)
Definition header_text (now : datetime) (comment : string) : string :=
  (provenance_line +:+ timestamp_line now) +:+ comment.

(** A file in the format of [save_df_as_csv]: the line of provenance, the
    line of the time, the comment of the caller, then the table, with its
    header row when [header] is set, one line a row, [--] for a missing
    cell. *)
Definition file_text (now : datetime) (comment sep : string) (header index : bool)
    (frame : Pandas.DataFrame) : string :=
  "# Generated by lineage v" +:+ __version__ +:+
    ", https://github.com/apriha/lineage" +:+ nl +:+
  "# Generated at " +:+ strftime now +:+ " UTC" +:+ nl +:+
  comment +:+
  (if header then Pandas.csv_header sep index frame else "") +:+
  String.concat "" (Pandas.csv_row sep "--" index <$> Pandas.rows frame).

(** Every file the call writes for the frame has the header row. *)
Definition written_with_header (frame : Pandas.DataFrame)
    (path filename comment : string) (kwargs : to_csv_kwargs) (w : world) : Prop :=
  ∀ w' r,
    save_df_as_csv (PyDataFrame frame) path filename comment kwargs w = (w', Returned r) →
    r ≠ "" →
    ∃ p, resolve r = Some p ∧
         fs w' !! p =
           Some (File (file_text (clock w) comment (default "," (kw_sep kwargs)) true
                         (default true (kw_index kwargs)) frame)).
End Save.

(** A file can be put at the destination: the destination has a name, lies
    in a directory that may be written, and is not itself a directory. *)
Definition destination_free (fs1 : filesystem) (destination : string) : Prop :=
  ∃ c parent, resolve destination = Some (c :: parent) ∧
              stat fs1 parent = Some (Dir true) ∧
              isdir_path fs1 (c :: parent) = false.

(** Keyword arguments that [to_csv] takes next to [na_rep="--"]. *)
Definition kwargs_accepted (kwargs : to_csv_kwargs) : Prop :=
  kw_na_rep kwargs = None ∧ String.length (default "," (kw_sep kwargs)) = 1.

(** A tree with a directory that may not be written and a regular file. *)
Definition guarded : world :=
  World (<[ ["ro"] := Dir false ]> (<[ ["notes"] := File "hi" ]> ∅)) []
        (Datetime 2019 3 7 9 5 0).

(** A frame of two rows with a missing cell in each. *)
Definition snps : Pandas.DataFrame :=
  Pandas.Build_DataFrame (Some "rsid") ["chrom"; "pos"]
    [("rs1", [Some "1"; None]); ("rs2", [None; Some "5"])].

(** A frame with columns and no row. *)
Definition no_rows : Pandas.DataFrame :=
  Pandas.Build_DataFrame (Some "rsid") ["chrom"; "pos"] [].

End Utils.

(** * Properties *)

(** ** [Pool.map] keeps the order of the tasks *)
Module PoolFacts.
Import Pool.
Section Facts.
Context {A B : Type}.
Variable pyNone : B.
Implicit Types (f : A → outcome B) (g : A → B) (l tasks chunk : list A).

Lemma completion_order_perm w n : completion_order w n ≡ₚ seq 0 n.
Proof. unfold completion_order. apply merge_sort_Permutation. Qed.

Lemma mapstar_all_returned f g l :
  (∀ t, t ∈ l → f t = Returned (g t)) → mapstar f l = Returned (g <$> l).
Proof.
  induction l as [|x l IH]; intros Hf; simpl; [done|].
  rewrite (Hf x) by left. rewrite IH; [done|].
  intros t Ht. apply Hf. by right.
Qed.

Lemma mapstar_raises f l t :
  t ∈ l → is_Returned (f t) = false → is_Returned (mapstar f l) = false.
Proof.
  induction l as [|x l IH]; intros Ht Hr; [by apply elem_of_nil in Ht|].
  simpl. apply elem_of_cons in Ht as [->|Ht].
  - destruct (f x); simpl in *; congruence.
  - destruct (f x); [|done]. specialize (IH Ht Hr).
    destruct (mapstar f l); simpl in *; congruence.
Qed.

Lemma mapstar_total f l :
  (∃ t, t ∈ l ∧ is_Returned (f t) = false ∧ is_Returned (mapstar f l) = false)
  ∨ (∃ g, ∀ t, t ∈ l → f t = Returned (g t)).
Proof.
  induction l as [|x l IH].
  - right. exists (λ _, pyNone). intros t Ht. by apply elem_of_nil in Ht.
  - destruct (f x) as [y|e] eqn:Hx.
    + destruct IH as [(t & Ht & Hr & Hm)|[g Hg]].
      * left. exists t. split; [by right|]. split; [done|].
        simpl. rewrite Hx. destruct (mapstar f l); simpl in *; congruence.
      * right. exists (λ t, match f t with Returned b => b | Raised _ => pyNone end).
        intros t Ht. apply elem_of_cons in Ht as [->|Ht].
        -- by rewrite Hx.
        -- by rewrite (Hg t Ht).
    + left. exists x. split; [by left|]. simpl. by rewrite Hx.
Qed.

Lemma get_tasks_lookup size fuel l i :
  0 < size → length l ≤ fuel →
  get_tasks fuel size l !! i =
    if decide (i * size < length l) then Some (take size (drop (i * size) l)) else None.
Proof.
  intros Hsize. revert l i.
  induction fuel as [|fuel IH]; intros l i Hlen.
  - destruct l; [|simpl in Hlen; lia].
    case_decide as Hi; [simpl in Hi; lia|done].
  - destruct l as [|a l].
    { case_decide as Hi; [simpl in Hi; lia|]. simpl. by rewrite take_nil. }
    destruct size as [|size]; [lia|].
    destruct i as [|i]; [case_decide as Hi; [done|simpl in Hi; lia]|].
    cbn [get_tasks take drop lookup list_lookup].
    rewrite IH by (rewrite length_drop; simpl in Hlen; lia).
    rewrite length_drop.
    replace (S i * S size) with (S size + i * S size) by lia.
    rewrite <- (drop_drop (a :: l)). cbn [drop length].
    repeat case_decide; try lia; done.
Qed.

(** The fuel suffices: the chunks, put end to end, are the tasks. *)
Lemma get_tasks_concat size fuel l :
  0 < size → length l ≤ fuel → concat (get_tasks fuel size l) = l.
Proof.
  intros Hsize. revert l.
  induction fuel as [|fuel IH]; intros l Hlen.
  - by destruct l; [|simpl in Hlen; lia].
  - destruct l as [|a l]; [simpl; by rewrite take_nil|].
    destruct size as [|size]; [lia|].
    cbn [get_tasks take drop concat].
    rewrite IH by (rewrite length_drop; simpl in Hlen; lia).
    simpl. by rewrite take_drop.
Qed.

Lemma slice_assign_length a c new (v : list B) :
  length new = min c (length v - a) →
  length (slice_assign a (a + c) new v) = length v.
Proof.
  intros Hnew. unfold slice_assign.
  rewrite !length_app, length_take, length_drop, Hnew. lia.
Qed.

Lemma slice_assign_lookup a c new (v : list B) j :
  length new = min c (length v - a) → j < length v →
  slice_assign a (a + c) new v !! j =
    if decide (a ≤ j < a + c) then new !! (j - a) else v !! j.
Proof.
  intros Hnew Hj. unfold slice_assign.
  destruct (decide (j < a)) as [Hlt|Hge].
  - rewrite lookup_app_l by (rewrite length_take; lia).
    rewrite lookup_take_lt by done. case_decide; [lia|done].
  - rewrite lookup_app_r by (rewrite length_take; lia).
    rewrite length_take, Nat.min_l by lia.
    destruct (decide (j - a < length new)) as [Hin|Hout].
    + rewrite lookup_app_l by done. case_decide; [done|lia].
    + rewrite lookup_app_r by lia. rewrite lookup_drop.
      case_decide; [lia|]. f_equal. lia.
Qed.

Section Stored.
Variables (f : A → outcome B) (g : A → B) (tasks : list A) (c : nat).
Hypothesis c_pos : 0 < c.
Hypothesis f_returns : ∀ t, t ∈ tasks → f t = Returned (g t).

Let chunks := get_tasks (length tasks) c tasks.
Let step := λ (r : MapResult) (i : nat),
  MapResult_set i (mapstar f (default [] (chunks !! i))) r.

Local Abbreviation stored := (stored g tasks c).

Lemma chunk_returns i :
  ∃ chunk, default [] (chunks !! i) = chunk ∧
    chunk = take c (drop (i * c) tasks) ∧
    mapstar f chunk = Returned (g <$> chunk).
Proof.
  exists (take c (drop (i * c) tasks)). split; [|split; [done|]].
  - unfold chunks. rewrite get_tasks_lookup by done.
    case_decide as Hi; [done|]. simpl.
    rewrite drop_ge by lia. by rewrite take_nil.
  - apply mapstar_all_returned. intros t Ht. apply f_returns.
    apply elem_of_take in Ht as (k & Ht & _).
    rewrite lookup_drop in Ht. by eapply list_elem_of_lookup_2.
Qed.

Lemma stored_step done r i : stored done r → stored (done ++ [i]) (step r i).
Proof.
  intros (Hs & Hc & v & Hv & Hlen & Hdone).
  destruct (chunk_returns i) as (chunk & Hchunk & Hdef & Hret).
  unfold step. rewrite Hchunk, Hret. unfold MapResult_set. rewrite Hs, Hv, Hc.
  replace ((i + 1) * c) with (i * c + c) by lia.
  assert (length (g <$> chunk) = min c (length v - i * c)) as Hnew.
  { rewrite length_fmap, Hdef, length_take, length_drop. lia. }
  split; [done|]. split; [done|]. eexists. split; [done|].
  split; [by rewrite slice_assign_length|].
  intros i' j t Hi' Hj Ht.
  assert (j < length v) as Hjv by (rewrite Hlen; by eapply lookup_lt_Some).
  rewrite slice_assign_lookup by done.
  case_decide as Hin.
  - rewrite list_lookup_fmap, Hdef.
    rewrite lookup_take_lt by lia. rewrite lookup_drop.
    replace (i * c + (j - i * c)) with j by lia. by rewrite Ht.
  - apply elem_of_app in Hi' as [Hi'|Hi'].
    + by eapply Hdone.
    + apply list_elem_of_singleton in Hi'. subst i'. lia.
Qed.

Lemma stored_foldl σ done r :
  stored done r → stored (done ++ σ) (foldl step r σ).
Proof.
  revert done r. induction σ as [|i σ IH]; intros done r Hr; simpl.
  - by rewrite app_nil_r.
  - replace (done ++ i :: σ) with ((done ++ [i]) ++ σ) by (by rewrite <- app_assoc).
    apply IH. by apply stored_step.
Qed.

Lemma stored_init : stored [] (MapResult_init pyNone c (length tasks)).
Proof.
  split; [done|]. split; [done|]. eexists. split; [done|].
  split; [by rewrite length_replicate|].
  intros i j t Hi. by apply elem_of_nil in Hi.
Qed.

Lemma stored_all σ r :
  σ ≡ₚ seq 0 (length chunks) → stored σ r →
  MapResult_get r = Returned (g <$> tasks).
Proof.
  intros Hσ (Hs & Hc & v & Hv & Hlen & Hdone).
  unfold MapResult_get. rewrite Hs, Hv. f_equal.
  apply list_eq. intros j. rewrite list_lookup_fmap.
  destruct (tasks !! j) as [t|] eqn:Ht; simpl.
  - assert (j < length tasks) as Hj by (by eapply lookup_lt_Some).
    pose proof (Nat.div_mod_eq j c) as Hdiv.
    pose proof (Nat.mod_upper_bound j c ltac:(lia)) as Hmod.
    apply (Hdone (j / c)); [|lia|done].
    rewrite Hσ. apply elem_of_seq. split; [lia|]. simpl.
    apply lookup_lt_is_Some. unfold chunks. rewrite get_tasks_lookup by done.
    rewrite decide_True by lia. by eexists.
  - apply lookup_ge_None. apply lookup_ge_None in Ht. lia.
Qed.
End Stored.

Lemma map_chunksize_pos len workers : 0 < len → 0 < map_chunksize len workers.
Proof.
  intros Hlen. unfold map_chunksize.
  destruct (Nat.eqb_spec len 0) as [|_]; [lia|].
  destruct (Nat.eqb_spec (len mod (workers * 4)) 0) as [Hmod|_]; [|lia].
  destruct (decide (workers * 4 = 0)) as [Hz|Hnz].
  - rewrite Hz in Hmod. simpl in Hmod. lia.
  - pose proof (Nat.div_mod_eq len (workers * 4)). 
    destruct (len / (workers * 4)); lia.
Qed.

(** [Pool.map] on tasks that all return: the results, in the order of the
    tasks, whatever the latencies. *)
Lemma map_returns self f g tasks w :
  (∀ t, t ∈ tasks → f t = Returned (g t)) →
  map pyNone self f tasks w = (w, Returned (g <$> tasks)).
Proof.
  intros Hf. unfold map. f_equal.
  destruct tasks as [|t0 tasks']; [done|].
  set (tasks := t0 :: tasks') in *.
  set (c := map_chunksize (length tasks) (_processes self)).
  assert (0 < c) as Hc by (apply map_chunksize_pos; simpl; lia).
  eapply stored_all; [exact Hc|apply completion_order_perm|].
  eapply (stored_foldl _ _ _ _ Hc Hf _ []). apply stored_init.
Qed.

Section Failed.
Variables (f : A → outcome B) (chunks : list (list A)).
Let step := λ (r : MapResult) (i : nat),
  MapResult_set i (mapstar f (default [] (chunks !! i))) r.

Lemma failed_foldl σ r :
  _success r = false → _success (foldl step r σ) = false.
Proof.
  revert r. induction σ as [|i σ IH]; intros r Hr; simpl; [done|].
  apply IH. unfold step, MapResult_set. rewrite Hr.
  by destruct (mapstar f _).
Qed.

Lemma fails_foldl σ r i :
  i ∈ σ → is_Returned (mapstar f (default [] (chunks !! i))) = false →
  _success (foldl step r σ) = false.
Proof.
  revert r. induction σ as [|i' σ IH]; intros r Hi Hfail;
    [by apply elem_of_nil in Hi|].
  simpl. apply elem_of_cons in Hi as [<-|Hi]; [|by apply IH].
  apply failed_foldl. unfold step, MapResult_set.
  destruct (mapstar f _); [done|]. by destruct (_success r).
Qed.
End Failed.

Lemma get_failed (r : MapResult (B:=B)) :
  _success r = false → is_Returned (MapResult_get r) = false.
Proof.
  intros Hr. unfold MapResult_get. rewrite Hr. by destruct (_value r).
Qed.

(** [Pool.map] raises as soon as one task does. *)
Lemma map_raises self f tasks w t :
  t ∈ tasks → is_Returned (f t) = false →
  ∃ e, map pyNone self f tasks w = (w, Raised e).
Proof.
  intros Ht Hfail. unfold map.
  set (c := map_chunksize (length tasks) (_processes self)).
  set (chunks := get_tasks (length tasks) c tasks).
  match goal with |- ∃ e, (w, MapResult_get ?r) = _ => 
    assert (is_Returned (MapResult_get r) = false) as Hget end.
  2:{ match goal with |- ∃ e, (w, ?o) = _ => destruct o as [?|e] end;
        [done|by exists e]. }
  apply get_failed.
  apply list_elem_of_lookup in Ht as [j Hj].
  assert (j < length tasks) as Hlt by (by eapply lookup_lt_Some).
  assert (0 < c) as Hc by (apply map_chunksize_pos; lia).
  pose proof (Nat.div_mod_eq j c) as Hdiv.
  pose proof (Nat.mod_upper_bound j c ltac:(lia)) as Hmod.
  assert (chunks !! (j / c) = Some (take c (drop (j / c * c) tasks))) as Hchunk.
  { unfold chunks. rewrite get_tasks_lookup by done. by rewrite decide_True by lia. }
  apply (fails_foldl f chunks _ _ (j / c)).
  - rewrite completion_order_perm. apply elem_of_seq. split; [lia|]. simpl.
    apply lookup_lt_is_Some. by eexists.
  - rewrite Hchunk. simpl. apply (mapstar_raises f _ t); [|done].
    apply list_elem_of_lookup. exists (j mod c).
    rewrite lookup_take_lt by done. rewrite lookup_drop.
    replace (j / c * c + j mod c) with j by lia. done.
Qed.
End Facts.
End PoolFacts.

(** ** [Parallelizer] *)
Module ParallelizerSpec.
Import Parallelizer.

Section Spec.
Context {A B : Type}.
Variable pyNone : B.
Implicit Types (f : A → outcome B) (g : A → B) (tasks : list A)
  (w : Pool.world) (self : Parallelizer.t).

(** A parallel call with a worker count of at least one: the pool is
    started, [Pool.map] runs, the pool is terminated. *)
Lemma call_parallel processes f tasks w :
  (1 ≤ Pool.effective_processes w processes)%Z →
  let n := Z.to_nat (Pool.effective_processes w processes) in
  __call__ pyNone (Build true processes) f tasks w =
    (Pool.World (Pool.cpu_count w) (Pool.latency w)
       (Pool.pool_log w ++ [Pool.Spawned n; Pool.Terminated n]),
     match (Pool.map pyNone (Pool.Build n) f tasks w).2 with
     | Returned l => Returned (PyList l)
     | Raised e => Raised e
     end).
Proof.
  intros Hvalid n.
  unfold __call__, bind, Pool.__init__. simpl.
  destruct (Z.ltb_spec (Pool.effective_processes w processes) 1) as [|_]; [lia|].
  unfold bind, Pool.log_event, ret, Pool.with_pool, Pool.map. simpl.
  fold n. change (Pool.completion_order (Pool.World _ _ _)) with (Pool.completion_order w).
  destruct (Pool.MapResult_get _); simpl; by rewrite <- app_assoc.
Qed.

(** A parallel call with a worker count below one raises at [Pool(...)]. *)
Lemma call_parallel_invalid processes f tasks w :
  (Pool.effective_processes w processes < 1)%Z →
  __call__ pyNone (Build true processes) f tasks w =
    (w, Raised (ValueError "Number of processes must be at least 1")).
Proof.
  intros Hinvalid. unfold __call__, bind, Pool.__init__. simpl.
  by destruct (Z.ltb_spec (Pool.effective_processes w processes) 1) as [_|]; [|lia].
Qed.

Lemma elements_sequential processes f tasks w :
  elements pyNone (Build false processes) f tasks w = Pool.mapstar f tasks.
Proof. done. Qed.

Lemma elements_parallel processes f tasks w :
  (1 ≤ Pool.effective_processes w processes)%Z →
  ∃ p, elements pyNone (Build true processes) f tasks w = (Pool.map pyNone p f tasks w).2.
Proof.
  intros Hvalid.
  exists (Pool.Build (Z.to_nat (Pool.effective_processes w processes))).
  unfold elements. rewrite (call_parallel processes f tasks w Hvalid).
  by destruct (Pool.map pyNone _ f tasks w) as [? [l|e]].
Qed.
End Spec.
End ParallelizerSpec.

Module ParallelizerClaims.
Import Parallelizer ParallelizerSpec.

Section Claims.
Context {A B : Type}.
Variable pyNone : B.
Implicit Types (f : A → outcome B) (g : A → B) (tasks : list A)
  (w : Pool.world) (self : Parallelizer.t).



(** C3, as amended.  With a worker count of at least one when the runner
    is parallel, a call on no task returns no element.  The sequential
    runner starts no pool; the parallel runner starts a pool of its worker
    count and terminates it before it returns. *)
Theorem call_on_no_task self f w :
  (_parallelize self = true →
   (1 ≤ Pool.effective_processes w (_processes self))%Z) →
  ∃ w' r,
    __call__ pyNone self f [] w = (w', Returned r) ∧
    to_list r = Returned [] ∧
    Pool.pool_log w' =
      Pool.pool_log w ++
      (if _parallelize self
       then let n := Z.to_nat (Pool.effective_processes w (_processes self)) in
            [Pool.Spawned n; Pool.Terminated n]
       else []).
Proof.
  intros Hvalid. destruct self as [[] processes]; simpl in *.
  - rewrite (call_parallel pyNone processes f [] w (Hvalid eq_refl)).
    eexists _, _. split; [done|]. split; done.
  - exists w, (PyMap f []). split; [done|]. split; [done|].
    by rewrite app_nil_r.
Qed.

(** C7, as amended.  Construction returns for every configuration and
    keeps both arguments as given: the worker count is not clamped.  With
    a worker count below one, a call of the parallel runner raises
    [ValueError] and starts no pool, and a call of the sequential runner
    returns. *)
Theorem init_keeps_worker_count parallelize processes w :
  ∃ self,
    __init__ parallelize processes w = (w, Returned self) ∧
    _parallelize self = parallelize ∧
    _processes self = processes ∧
    ∀ f tasks,
      (Pool.effective_processes w processes < 1)%Z →
      __call__ pyNone (Build true processes) f tasks w =
        (w, Raised (ValueError "Number of processes must be at least 1")) ∧
      ∃ r, __call__ pyNone (Build false processes) f tasks w = (w, Returned r).
Proof.
  exists (Build parallelize processes).
  split; [done|]. split; [done|]. split; [done|].
  intros f tasks Hinvalid.
  split; [by apply call_parallel_invalid|]. by eexists.
Qed.
End Claims.



(** C3 as stated fails: the parallel runner starts a pool for no task. *)
Lemma empty_call_spawns_pool :
  ¬ empty_call_without_pool 0 (Build true (Some 2%Z)) square reversing.
Proof.
  intros (w' & r & Hcall & _ & Hlog).
  vm_compute in Hcall. injection Hcall as <- _. discriminate Hlog.
Qed.

Lemma call_on_no_task_witness :
  ∃ w' r,
    __call__ 0 (Build true (Some 2%Z)) square [] reversing = (w', Returned r) ∧
    to_list r = Returned [] ∧
    Pool.pool_log w' = [Pool.Spawned 2; Pool.Terminated 2].
Proof.
  apply (call_on_no_task 0 (Build true (Some 2%Z)) square reversing).
  intros _. simpl. lia.
Defined.

(** C7 as stated fails: a worker count of zero is kept, and the call of the
    parallel runner raises. *)
Lemma worker_count_not_clamped :
  ¬ clamped_call_returns 0 (Some 0%Z) square [1; 2; 3] reversing.
Proof.
  intros (w1 & self & Hinit & Hge & _).
  injection Hinit as <- <-. simpl in Hge. lia.
Qed.

Lemma init_keeps_worker_count_witness :
  ∃ self,
    __init__ true (Some 0%Z) reversing = (reversing, Returned self) ∧
    _parallelize self = true ∧
    _processes self = Some 0%Z ∧
    __call__ 0 (Build true (Some 0%Z)) square [1; 2; 3] reversing =
      (reversing, Raised (ValueError "Number of processes must be at least 1")) ∧
    ∃ r, __call__ 0 (Build false (Some 0%Z)) square [1; 2; 3] reversing
         = (reversing, Returned r).
Proof.
  destruct (@init_keeps_worker_count nat nat 0 true (Some 0%Z) reversing)
    as (self & Hinit & Hpar & Hcount & Hcall).
  exists self. split; [exact Hinit|]. split; [exact Hpar|]. split; [exact Hcount|].
  apply (Hcall square [1; 2; 3]). simpl. lia.
Defined.
(** Twenty tasks on two workers go out in seven chunks of three; on the
    machine [reversing] the last chunk is back first. *)
Example chunks_of_twenty :
  Pool.get_tasks 20 (Pool.map_chunksize 20 2) (seq 0 20) =
    [[0; 1; 2]; [3; 4; 5]; [6; 7; 8]; [9; 10; 11]; [12; 13; 14]; [15; 16; 17]; [18; 19]]
  ∧ Pool.completion_order reversing 7 = [6; 5; 4; 3; 2; 1; 0].
Proof. split; vm_compute; reflexivity. Qed.

Example squares_in_order :
  elements 0 (Build true (Some 2%Z)) square (seq 0 20) reversing =
    Returned ((λ x, x * x) <$> seq 0 20).
Proof. vm_compute. reflexivity. Qed.

(** When several tasks raise, both modes raise, though not always the same
    exception: the pool keeps the first to arrive, the iterator meets the
    first in the order of the tasks. *)
Example raising_tasks :
  elements 0 (Build true (Some 2%Z)) picky (seq 0 20) reversing =
    Raised (ValueError "seventeen")
  ∧ elements 0 (Build false (Some 2%Z)) picky (seq 0 20) reversing =
    Raised (ValueError "three").
Proof. split; vm_compute; reflexivity. Qed.
End ParallelizerClaims.

(** ** [Singleton] *)
Module SingletonSpec.
Import Singleton.

Section Spec.
Context {Args : Type}.
Variable constructor : string → Args → option exn.
Implicit Types (st : state (Args:=Args)) (cls : string) (args : Args) (o : nat).

Local Abbreviation call := (__call__ constructor).
Local Abbreviation exec := (exec constructor).

Lemma call_registered cls args st o :
  _instances st !! cls = Some o → call cls args st = (st, Returned o).
Proof. intros Hreg. unfold Singleton.__call__. by rewrite Hreg. Qed.

Lemma call_constructs cls args st :
  _instances st !! cls = None → constructor cls args = None →
  call cls args st =
    (State (<[cls := length (heap st)]> (_instances st))
           (heap st ++ [Object cls args])
           (constructed st ++ [(cls, args)]),
     Returned (length (heap st))).
Proof.
  intros Hnew Hok. unfold Singleton.__call__, bind, type_call.
  by rewrite Hnew, Hok.
Qed.

Lemma call_raises cls args st e :
  _instances st !! cls = None → constructor cls args = Some e →
  call cls args st =
    (State (_instances st) (heap st) (constructed st ++ [(cls, args)]), Raised e).
Proof.
  intros Hnew Hraise. unfold Singleton.__call__, bind, type_call.
  by rewrite Hnew, Hraise.
Qed.

(** The three ways a call can go. *)
Lemma call_cases cls args st :
  (∃ o, _instances st !! cls = Some o ∧ call cls args st = (st, Returned o))
  ∨ (_instances st !! cls = None ∧ constructor cls args = None ∧
     call cls args st =
       (State (<[cls := length (heap st)]> (_instances st))
              (heap st ++ [Object cls args])
              (constructed st ++ [(cls, args)]),
        Returned (length (heap st))))
  ∨ (∃ e, _instances st !! cls = None ∧
     call cls args st =
       (State (_instances st) (heap st) (constructed st ++ [(cls, args)]), Raised e)).
Proof.
  destruct (_instances st !! cls) as [o|] eqn:Hreg.
  - left. exists o. split; [done|]. by apply call_registered.
  - destruct (constructor cls args) as [e|] eqn:Hc.
    + right. right. exists e. split; [done|]. by apply call_raises.
    + right. left. split; [done|]. split; [done|]. by apply call_constructs.
Qed.

Lemma registered_instance cls st o :
  registry_sound st → _instances st !! cls = Some o → instances_of cls st = [o].
Proof.
  intros [Hreg Hheap] Hcls.
  assert (∀ x, x ∈ instances_of cls st ↔ x = o) as Hiff.
  { intros x. unfold instances_of. rewrite list_elem_of_filter, elem_of_seq.
    split.
    - intros [Hx _]. destruct (heap st !! x) as [ob|] eqn:Hob; [|done].
      simpl in Hx. injection Hx as <-.
      apply Hheap in Hob. congruence.
    - intros ->. destruct (Hreg cls o Hcls) as [a Ha].
      split; [by rewrite Ha|]. split; [lia|]. simpl.
      by eapply lookup_lt_Some. }
  apply Permutation_singleton_r. apply NoDup_Permutation.
  - unfold instances_of. apply NoDup_filter, NoDup_seq.
  - apply NoDup_singleton.
  - intros x. rewrite Hiff. by rewrite list_elem_of_singleton.
Qed.

Lemma unregistered_no_instance cls st :
  registry_sound st → _instances st !! cls = None → instances_of cls st = [].
Proof.
  intros [Hreg Hheap] Hcls. apply elem_of_nil_inv. intros x.
  unfold instances_of. rewrite list_elem_of_filter. intros [Hx _].
  destruct (heap st !! x) as [ob|] eqn:Hob; [|done].
  simpl in Hx. injection Hx as <-. apply Hheap in Hob. congruence.
Qed.

Lemma sound_initial : registry_sound (initial (Args:=Args)).
Proof. split; [intros cls o Hcls|intros o ob Hob]; done. Qed.

Lemma sound_call cls args st :
  registry_sound st → registry_sound (call cls args st).1.
Proof.
  intros Hst.
  destruct (call_cases cls args st)
    as [(o & _ & ->)|[(Hnew & _ & ->)|(e & _ & ->)]]; simpl; [done| |done].
  destruct Hst as [Hreg Hheap]. split; simpl.
  - intros cls' o. rewrite lookup_insert. case_decide as Hcls.
    + intros [= <-]. subst cls'. exists args.
      by rewrite lookup_app_r, Nat.sub_diag by lia.
    + intros Ho. destruct (Hreg cls' o Ho) as [a Ha]. exists a.
      rewrite lookup_app_l; [done|]. by eapply lookup_lt_Some.
  - intros o ob Hob. apply lookup_app_Some in Hob as [Hob|[Hlen Hob]].
    + rewrite lookup_insert_ne; [by apply Hheap|].
      intros Heq. apply Hheap in Hob. congruence.
    + apply list_lookup_singleton_Some in Hob as [Ho <-]. simpl.
      rewrite lookup_insert_eq. f_equal. lia.
Qed.

Lemma sound_exec calls st : registry_sound st → registry_sound (exec calls st).
Proof.
  revert st. induction calls as [|[cls args] calls IH]; intros st Hst; [done|].
  simpl. apply IH. by apply sound_call.
Qed.

(** Once a class is registered, no call changes its entry or runs its
    constructor. *)
Lemma registered_call cls o cls' args st :
  _instances st !! cls = Some o →
  _instances (call cls' args st).1 !! cls = Some o ∧
  constructions_of cls (call cls' args st).1 = constructions_of cls st.
Proof.
  intros Hcls.
  destruct (call_cases cls' args st)
    as [(o' & _ & ->)|[(Hnew & _ & ->)|(e & Hnew & ->)]]; simpl; [done| |].
  - assert (cls' ≠ cls) as Hne by congruence.
    split; [by rewrite lookup_insert_ne|].
    unfold constructions_of. simpl. rewrite filter_app, filter_cons_False by done.
    by rewrite filter_nil, app_nil_r.
  - assert (cls' ≠ cls) as Hne by congruence.
    split; [done|].
    unfold constructions_of. simpl. rewrite filter_app, filter_cons_False by done.
    by rewrite filter_nil, app_nil_r.
Qed.

Lemma registered_exec cls o calls st :
  _instances st !! cls = Some o →
  _instances (exec calls st) !! cls = Some o ∧
  constructions_of cls (exec calls st) = constructions_of cls st.
Proof.
  revert st. induction calls as [|[cls' args] calls IH]; intros st Hcls; [done|].
  simpl. destruct (registered_call cls o cls' args st Hcls) as [Hreg Hlog].
  destruct (IH _ Hreg) as [Hreg' Hlog']. split; [done|]. by rewrite Hlog'.
Qed.
End Spec.
End SingletonSpec.

Module SingletonClaims.
Import Singleton SingletonSpec.

Section Claims.
Context {Args : Type}.
Variable constructor : string → Args → option exn.

End Claims.

End SingletonClaims.

(** ** [os.makedirs] *)
Module OsFacts.
Import Os.

Implicit Types (fs : filesystem) (p q name head : list string) (e : exn).

Lemma extends_refl fs : extends fs fs.
Proof. intros q. by left. Qed.

Lemma extends_trans fs1 fs2 fs3 : extends fs1 fs2 → extends fs2 fs3 → extends fs1 fs3.
Proof.
  intros H12 H23 q. destruct (H12 q) as [E12|[N1 D2]], (H23 q) as [E23|[N2 D3]].
  - left. congruence.
  - right. split; congruence.
  - right. split; congruence.
  - congruence.
Qed.

Lemma extends_insert fs p : fs !! p = None → extends fs (<[p := Dir true]> fs).
Proof.
  intros Hp q. destruct (decide (p = q)) as [<-|Hne].
  - right. by rewrite lookup_insert_eq.
  - left. by rewrite lookup_insert_ne.
Qed.

Lemma extends_same_files fs fs' : extends fs fs' → same_files fs fs'.
Proof.
  intros Hext q text. destruct (Hext q) as [->|[Hn Hd]]; [done|].
  rewrite Hn, Hd. done.
Qed.

Lemma extends_stat fs fs' p node :
  extends fs fs' → stat fs p = Some node → stat fs' p = Some node.
Proof.
  intros Hext. destruct p as [|c p]; [done|]. simpl.
  destruct (Hext (c :: p)) as [->|[Hn _]]; [done|]. by rewrite Hn.
Qed.

Lemma extends_exists fs fs' p :
  extends fs fs' → exists_path fs p = true → exists_path fs' p = true.
Proof.
  intros Hext. unfold exists_path.
  destruct (stat fs p) as [node|] eqn:Hs; [|done].
  by rewrite (extends_stat fs fs' p node Hext Hs).
Qed.

Lemma isdir_exists fs p : isdir_path fs p = true → exists_path fs p = true.
Proof. unfold isdir_path, exists_path. by destruct (stat fs p). Qed.

(** [mkdir] either makes the directory or raises and changes nothing. *)
Lemma mkdir_path_cases p fs :
  (∃ c parent, p = c :: parent ∧ stat fs parent = Some (Dir true) ∧ fs !! p = None ∧
     mkdir_path p fs = (<[p := Dir true]> fs, Returned tt))
  ∨ (∃ code, mkdir_path p fs = (fs, Raised (OSError code (render p))) ∧
       (code = EEXIST → exists_path fs p = true)).
Proof.
  destruct p as [|c parent]; [right; by exists EEXIST|].
  unfold mkdir_path.
  destruct (stat fs parent) as [[text|[]]|] eqn:Hparent.
  - right. by exists ENOTDIR.
  - destruct (fs !! (c :: parent)) as [node|] eqn:Hp.
    + right. exists EEXIST. split; [done|]. intros _. unfold exists_path. simpl. by rewrite Hp.
    + left. by exists c, parent.
  - destruct (fs !! (c :: parent)) as [node|] eqn:Hp.
    + right. exists EEXIST. split; [done|]. intros _. unfold exists_path. simpl. by rewrite Hp.
    + right. by exists EACCES.
  - right. by exists ENOENT.
Qed.

(** [mkdir] under [exist_ok]: afterwards the directory is there, or the call
    raised an [OSError] and changed nothing. *)
Lemma mkdir_exist_ok_cases name fs :
  (∃ fs', mkdir_exist_ok name fs = (fs', Returned tt) ∧ isdir_path fs' name = true ∧
     (fs' = fs ∨ (fs !! name = None ∧ fs' = <[name := Dir true]> fs)))
  ∨ (∃ code, mkdir_exist_ok name fs = (fs, Raised (OSError code (render name))) ∧
       isdir_path fs name = false ∧ (code = EEXIST → exists_path fs name = true)).
Proof.
  unfold mkdir_exist_ok, try_except.
  destruct (mkdir_path_cases name fs)
    as [(c & parent & -> & Hparent & Hfree & ->)|(code & -> & Hcode)]; simpl.
  - left. eexists. split; [done|]. split; [|by right].
    unfold isdir_path. simpl. by rewrite lookup_insert_eq.
  - destruct (isdir_path fs name) eqn:Hdir.
    + left. exists fs. split; [done|]. split; [done|by left].
    + right. by exists code.
Qed.

Lemma mkdir_exist_ok_extends name fs fs' r :
  mkdir_exist_ok name fs = (fs', r) → extends fs fs'.
Proof.
  intros Hrun.
  destruct (mkdir_exist_ok_cases name fs)
    as [(fs1 & Heq & _ & [->|[Hfree ->]])|(code & Heq & _)];
    rewrite Heq in Hrun; injection Hrun as <- <-.
  - apply extends_refl.
  - by apply extends_insert.
  - apply extends_refl.
Qed.

Lemma mkdir_exist_ok_idem name fs fs' r :
  mkdir_exist_ok name fs = (fs', r) → mkdir_exist_ok name fs' = (fs', r).
Proof.
  intros Hrun.
  destruct (mkdir_exist_ok_cases name fs)
    as [(fs1 & Heq & Hdir & _)|(code & Heq & _)];
    rewrite Heq in Hrun; injection Hrun as <- <-; [|done].
  unfold mkdir_exist_ok, try_except.
  destruct (mkdir_path_cases name fs1)
    as [(c & parent & -> & _ & Hfree & _)|(code & -> & _)].
  - unfold isdir_path in Hdir. simpl in Hdir. by rewrite Hfree in Hdir.
  - simpl. by rewrite Hdir.
Qed.

(** [mkdir] touches the one path it is given. *)
Lemma mkdir_exist_ok_other name fs fs' r q :
  mkdir_exist_ok name fs = (fs', r) → q ≠ name → fs' !! q = fs !! q.
Proof.
  intros Hrun Hne.
  destruct (mkdir_exist_ok_cases name fs)
    as [(fs1 & Heq & _ & [->|[_ ->]])|(code & Heq & _)];
    rewrite Heq in Hrun; injection Hrun as <- <-; [done| |done].
  by rewrite lookup_insert_ne.
Qed.

(** The ways through [makedirs] of a path below the root. *)
Lemma makedirs_cons_cases c head fs :
  (exists_path fs head = true ∧
   makedirs_path (c :: head) fs = mkdir_exist_ok (c :: head) fs)
  ∨ (exists_path fs head = false ∧
     ∃ fa, makedirs_path head fs = (fa, Returned tt) ∧
           makedirs_path (c :: head) fs = mkdir_exist_ok (c :: head) fa)
  ∨ (exists_path fs head = false ∧
     ∃ fa e, makedirs_path head fs = (fa, Raised e) ∧ is_FileExistsError e = false ∧
             makedirs_path (c :: head) fs = (fa, Raised e))
  ∨ (exists_path fs head = false ∧
     ∃ fa e, makedirs_path head fs = (fa, Raised e) ∧ is_FileExistsError e = true ∧
             makedirs_path (c :: head) fs = mkdir_exist_ok (c :: head) fa).
Proof.
  cbn [makedirs_path]. unfold bind, try_except.
  destruct (exists_path fs head) eqn:Hhead; simpl.
  - left. split; [done|]. done.
  - right. destruct (makedirs_path head fs) as [fa [[]|e]] eqn:Hrec.
    + left. split; [done|]. by exists fa.
    + right. destruct (is_FileExistsError e) eqn:Hfee.
      * right. split; [done|]. by exists fa, e.
      * left. split; [done|]. by exists fa, e.
Qed.

Lemma makedirs_path_extends name fs fs' r :
  makedirs_path name fs = (fs', r) → extends fs fs'.
Proof.
  revert fs fs' r. induction name as [|c head IH]; intros fs fs' r Hrun.
  - by eapply mkdir_exist_ok_extends.
  - destruct (makedirs_cons_cases c head fs)
      as [[_ Heq]|[(_ & fa & Hrec & Heq)|[(_ & fa & e & Hrec & _ & Heq)
         |(_ & fa & e & Hrec & _ & Heq)]]]; rewrite Heq in Hrun.
    + by eapply mkdir_exist_ok_extends.
    + eapply extends_trans; [by eapply IH|by eapply mkdir_exist_ok_extends].
    + injection Hrun as <- <-. by eapply IH.
    + eapply extends_trans; [by eapply IH|by eapply mkdir_exist_ok_extends].
Qed.

(** [makedirs] touches the path it is given and paths above it only. *)
Lemma makedirs_path_longer name fs fs' r q :
  makedirs_path name fs = (fs', r) → length name < length q → fs' !! q = fs !! q.
Proof.
  revert fs fs' r. induction name as [|c head IH]; intros fs fs' r Hrun Hlen.
  - eapply mkdir_exist_ok_other; [done|]. intros ->. simpl in Hlen. lia.
  - assert (q ≠ c :: head) as Hne by (intros ->; lia).
    assert (length head < length q) as Hlen' by (simpl in Hlen; lia).
    destruct (makedirs_cons_cases c head fs)
      as [[_ Heq]|[(_ & fa & Hrec & Heq)|[(_ & fa & e & Hrec & _ & Heq)
         |(_ & fa & e & Hrec & _ & Heq)]]]; rewrite Heq in Hrun.
    + by eapply mkdir_exist_ok_other.
    + rewrite (mkdir_exist_ok_other _ _ _ _ q Hrun Hne). by eapply IH.
    + injection Hrun as <- <-. by eapply IH.
    + rewrite (mkdir_exist_ok_other _ _ _ _ q Hrun Hne). by eapply IH.
Qed.

Lemma mkdir_exist_ok_Returned name fs fs' :
  mkdir_exist_ok name fs = (fs', Returned tt) → isdir_path fs' name = true.
Proof.
  intros Hrun.
  destruct (mkdir_exist_ok_cases name fs) as [(fs1 & Heq & Hdir & _)|(code & Heq & _)];
    rewrite Heq in Hrun; [|done]. by injection Hrun as <-.
Qed.

Lemma mkdir_exist_ok_Raised name fs fs' e :
  mkdir_exist_ok name fs = (fs', Raised e) →
  fs' = fs ∧ is_OSError e = true ∧ (is_FileExistsError e = true → exists_path fs name = true).
Proof.
  intros Hrun.
  destruct (mkdir_exist_ok_cases name fs) as [(fs1 & Heq & _)|(code & Heq & _ & Hcode)];
    rewrite Heq in Hrun; [done|]. injection Hrun as <- <-.
  split; [done|]. split; [done|]. simpl. destruct code; try done. by intros _; apply Hcode.
Qed.

(** When [makedirs] returns, the directory is there. *)
Lemma makedirs_path_Returned name fs fs' :
  makedirs_path name fs = (fs', Returned tt) → isdir_path fs' name = true.
Proof.
  destruct name as [|c head]; intros Hrun.
  - by eapply mkdir_exist_ok_Returned.
  - destruct (makedirs_cons_cases c head fs)
      as [[_ Heq]|[(_ & fa & Hrec & Heq)|[(_ & fa & e & Hrec & _ & Heq)
         |(_ & fa & e & Hrec & _ & Heq)]]]; rewrite Heq in Hrun;
      try done; by eapply mkdir_exist_ok_Returned.
Qed.

(** When [makedirs] raises, it raises an [OSError], it has not touched the
    path it was given, and a [FileExistsError] means the path was taken. *)
Lemma makedirs_path_Raised name fs fs' e :
  makedirs_path name fs = (fs', Raised e) →
  is_OSError e = true ∧ fs' !! name = fs !! name ∧
  (is_FileExistsError e = true → exists_path fs name = true).
Proof.
  revert fs fs' e. induction name as [|c head IH]; intros fs fs' e Hrun.
  - apply mkdir_exist_ok_Raised in Hrun as (-> & Hos & Hfee). done.
  - assert (∀ fa r, makedirs_path head fs = (fa, r) →
            fa !! (c :: head) = fs !! (c :: head)) as Hself.
    { intros fa r Hrec. eapply makedirs_path_longer; [done|]. simpl. lia. }
    assert (∀ fa, fa !! (c :: head) = fs !! (c :: head) →
            exists_path fa (c :: head) = true → exists_path fs (c :: head) = true)
      as Hex.
    { intros fa Hfa. unfold exists_path. simpl. by rewrite Hfa. }
    destruct (makedirs_cons_cases c head fs)
      as [[_ Heq]|[(_ & fa & Hrec & Heq)|[(_ & fa & e' & Hrec & Hnfee & Heq)
         |(_ & fa & e' & Hrec & _ & Heq)]]]; rewrite Heq in Hrun.
    + apply mkdir_exist_ok_Raised in Hrun as (-> & Hos & Hfee). done.
    + apply mkdir_exist_ok_Raised in Hrun as (-> & Hos & Hfee).
      split; [done|]. split; [by eapply Hself|].
      intros Hf. eapply Hex; [by eapply Hself|by apply Hfee].
    + injection Hrun as <- <-. destruct (IH _ _ _ Hrec) as (Hos & _ & _).
      split; [done|]. split; [by eapply Hself|]. intros Hf. congruence.
    + apply mkdir_exist_ok_Raised in Hrun as (-> & Hos & Hfee).
      split; [done|]. split; [by eapply Hself|].
      intros Hf. eapply Hex; [by eapply Hself|by apply Hfee].
Qed.

(** [makedirs] returns on a path with nothing in the way. *)
Lemma makedirs_path_clear name fs :
  clear fs name →
  ∃ fs', makedirs_path name fs = (fs', Returned tt) ∧
         stat fs' name = Some (Dir true).
Proof.
  revert fs. induction name as [|c head IH]; intros fs Hclear.
  - exists fs. split; [|done]. unfold makedirs_path, mkdir_exist_ok, try_except. done.
  - assert (clear fs head) as Hclear'.
    { intros q Hq. apply Hclear. by apply suffix_cons_r. }
    assert (∃ fa, stat fa head = Some (Dir true) ∧
                  fa !! (c :: head) = fs !! (c :: head) ∧
                  makedirs_path (c :: head) fs = mkdir_exist_ok (c :: head) fa)
      as (fa & Hhead & Hself & ->).
    { destruct (makedirs_cons_cases c head fs)
        as [[Hex Heq]|[(Hex & fa & Hrec & Heq)|[(Hex & fa & e & Hrec & _ & Heq)
           |(Hex & fa & e & Hrec & _ & Heq)]]].
      - exists fs. split; [|done].
        unfold exists_path in Hex.
        destruct (Hclear' head) as [Hn|Hd]; [done|by rewrite Hn in Hex|done].
      - exists fa. split; [|split; [|done]].
        + destruct (IH fs Hclear') as (fa' & Hrec' & Hstat). congruence.
        + eapply makedirs_path_longer; [done|]. simpl. lia.
      - destruct (IH fs Hclear') as (fa' & Hrec' & _). congruence.
      - destruct (IH fs Hclear') as (fa' & Hrec' & _). congruence. }
    unfold mkdir_exist_ok, try_except, mkdir_path. rewrite Hhead, Hself.
    destruct (Hclear (c :: head)) as [Hn|Hd]; [done| |]; simpl in *.
    + rewrite Hn. eexists. split; [done|]. by rewrite lookup_insert_eq.
    + rewrite Hd. unfold isdir_path. simpl. rewrite Hself, Hd.
      eexists. split; [done|]. by rewrite Hself.
Qed.

(** A second [makedirs] of the same path does what the first one did and
    changes nothing. *)
Lemma makedirs_path_idem name fs fs' r :
  makedirs_path name fs = (fs', r) → makedirs_path name fs' = (fs', r).
Proof.
  revert fs fs' r. induction name as [|c head IH]; intros fs fs' r Hrun.
  - by eapply mkdir_exist_ok_idem.
  - assert (∀ fa, exists_path fa head = true →
            mkdir_exist_ok (c :: head) fa = (fs', r) →
            makedirs_path (c :: head) fs' = (fs', r)) as Hlast.
    { intros fa Hhead Hmk.
      assert (exists_path fs' head = true) as Hhead'.
      { eapply extends_exists; [by eapply mkdir_exist_ok_extends|done]. }
      destruct (makedirs_cons_cases c head fs')
        as [[_ ->]|[(? & _)|[(? & _)|(? & _)]]]; try congruence.
      by eapply mkdir_exist_ok_idem. }
    destruct (makedirs_cons_cases c head fs)
      as [[Hhead Heq]|[(Hhead & fa & Hrec & Heq)|[(Hhead & fa & e & Hrec & Hnfee & Heq)
         |(Hhead & fa & e & Hrec & Hfee & Heq)]]]; rewrite Heq in Hrun.
    + by eapply Hlast.
    + eapply Hlast; [|done].
      apply isdir_exists. by eapply makedirs_path_Returned.
    + injection Hrun as <- <-.
      destruct (makedirs_path_Raised _ _ _ _ Hrec) as (_ & Hself & _).
      assert (exists_path fa head = false) as Hhead'.
      { revert Hhead. unfold exists_path. destruct head; [done|]. simpl.
        by rewrite Hself. }
      destruct (makedirs_cons_cases c head fa)
        as [[? _]|[(_ & fb & Hrec' & _)|[(_ & fb & e' & Hrec' & _ & ->)
           |(_ & fb & e' & Hrec' & Hfee' & _)]]]; try congruence.
      * rewrite (IH _ _ _ Hrec) in Hrec'. done.
      * rewrite (IH _ _ _ Hrec) in Hrec'. by injection Hrec' as <- <-.
      * rewrite (IH _ _ _ Hrec) in Hrec'. injection Hrec' as <- <-. congruence.
    + destruct (makedirs_path_Raised _ _ _ _ Hrec) as (_ & _ & Htaken).
      rewrite (Htaken Hfee) in Hhead. done.
Qed.
End OsFacts.

(** ** [create_dir] *)
Module CreateDirSpec.
Import Os Utils OsFacts.

Implicit Types (fs : filesystem) (w : world) (path : string).

Lemma makedirs_fs_idem path fs fs' r :
  makedirs_fs path fs = (fs', r) → makedirs_fs path fs' = (fs', r).
Proof.
  unfold makedirs_fs. destruct (resolve path) as [p|].
  - apply makedirs_path_idem.
  - unfold raise. by intros [= <- <-].
Qed.

Lemma makedirs_fs_extends path fs fs' r :
  makedirs_fs path fs = (fs', r) → extends fs fs'.
Proof.
  unfold makedirs_fs. destruct (resolve path) as [p|].
  - apply makedirs_path_extends.
  - unfold raise. intros [= <- <-]. apply extends_refl.
Qed.

Lemma makedirs_fs_Raised path fs fs' e :
  makedirs_fs path fs = (fs', Raised e) → is_OSError e = true.
Proof.
  unfold makedirs_fs. destruct (resolve path) as [p|].
  - intros Hrun. by apply makedirs_path_Raised in Hrun as (? & _).
  - unfold raise. by intros [= <- <-].
Qed.

Lemma makedirs_fs_Returned path fs fs' :
  makedirs_fs path fs = (fs', Returned tt) →
  ∃ p, resolve path = Some p ∧ isdir_path fs' p = true.
Proof.
  unfold makedirs_fs. destruct (resolve path) as [p|]; [|done].
  intros Hrun. exists p. split; [done|]. by eapply makedirs_path_Returned.
Qed.

Lemma is_OSError_Exception e : is_OSError e = true → is_Exception e = true.
Proof. by destruct e. Qed.

(** [create_dir] in terms of what [os.makedirs] does. *)
Lemma create_dir_Returned path w fs' :
  makedirs_fs path (fs w) = (fs', Returned tt) →
  create_dir path w = (World fs' (stdout w) (clock w), Returned true).
Proof.
  intros Hrun. destruct (makedirs_fs_Returned _ _ _ Hrun) as (p & Hp & Hdir).
  unfold create_dir, bind, try_except, makedirs, lift_fs, path_exists. rewrite Hrun.
  simpl. rewrite Hp. by rewrite (isdir_exists _ _ Hdir).
Qed.

Lemma create_dir_Raised path w fs' e :
  makedirs_fs path (fs w) = (fs', Raised e) →
  create_dir path w = (World fs' (stdout w ++ [exn_str e]) (clock w), Returned false).
Proof.
  intros Hrun.
  pose proof (is_OSError_Exception e (makedirs_fs_Raised _ _ _ _ Hrun)) as Hexc.
  unfold create_dir, bind, try_except, makedirs, lift_fs. rewrite Hrun.
  simpl. by rewrite Hexc.
Qed.

(** What [create_dir] does: it returns [True] and leaves the directory in
    place, or it prints the error of [os.makedirs] and returns [False];
    either way only directories were added. *)
Lemma create_dir_cases path w :
  (∃ fs' p, makedirs_fs path (fs w) = (fs', Returned tt) ∧
      resolve path = Some p ∧ isdir_path fs' p = true ∧ extends (fs w) fs' ∧
      create_dir path w = (World fs' (stdout w) (clock w), Returned true))
  ∨ (∃ fs' e, makedirs_fs path (fs w) = (fs', Raised e) ∧
      is_Exception e = true ∧ extends (fs w) fs' ∧
      create_dir path w =
        (World fs' (stdout w ++ [exn_str e]) (clock w), Returned false)).
Proof.
  destruct (makedirs_fs path (fs w)) as [fs' [[]|e]] eqn:Hrun.
  - left. destruct (makedirs_fs_Returned _ _ _ Hrun) as (p & Hp & Hdir).
    exists fs', p. split; [done|]. split; [done|]. split; [done|].
    split; [by eapply makedirs_fs_extends|]. by apply create_dir_Returned.
  - right. exists fs', e. split; [done|].
    split; [by eapply is_OSError_Exception, makedirs_fs_Raised|].
    split; [by eapply makedirs_fs_extends|]. by apply create_dir_Raised.
Qed.

(** [create_dir] returns [True] on a path with nothing in the way. *)
Lemma create_dir_clear path w p :
  resolve path = Some p → clear (fs w) p →
  ∃ w', create_dir path w = (w', Returned true).
Proof.
  intros Hp Hclear.
  destruct (makedirs_path_clear p (fs w) Hclear) as (fs' & Hrun & _).
  eexists. apply (create_dir_Returned path w fs').
  unfold makedirs_fs. by rewrite Hp.
Qed.


Example create_dir_fresh :
  (create_dir "out/reports" guarded).2 = Returned true ∧
  fs (create_dir "out/reports" guarded).1 !! ["reports"; "out"] = Some (Dir true).
Proof. split; vm_compute; reflexivity. Qed.

Example create_dir_permission_denied :
  (create_dir "ro/reports" guarded).2 = Returned false ∧
  stdout (create_dir "ro/reports" guarded).1 = ["[Errno 13] Permission denied: '/ro/reports'"].
Proof. split; vm_compute; reflexivity. Qed.

Example create_dir_on_file :
  (create_dir "notes" guarded).2 = Returned false ∧
  (create_dir "notes/reports" guarded).2 = Returned false.
Proof. split; vm_compute; reflexivity. Qed.
End CreateDirSpec.

(** ** [save_df_as_csv] *)
Module SaveSpec.
Import Os Utils OsFacts CreateDirSpec.

Implicit Types (fs : filesystem) (w : world) (path filename comment : string)
  (kwargs : to_csv_kwargs) (frame : Pandas.DataFrame).

Lemma append_assoc (s1 s2 s3 : string) : (s1 +:+ s2) +:+ s3 = s1 +:+ s2 +:+ s3.
Proof.
  induction s1 as [|c s1 IH]; [done|].
  change (String c ((s1 +:+ s2) +:+ s3) = String c (s1 +:+ s2 +:+ s3)).
  by rewrite IH.
Qed.

Lemma append_nonempty (s1 s2 : string) : s1 ≠ "" → s1 +:+ s2 ≠ "".
Proof. by destruct s1. Qed.

Lemma resolve_nonempty path p : resolve path = Some p → path ≠ "".
Proof. intros Hp ->. done. Qed.

(** A path joined to a directory that has a name has a name. *)
Lemma path_join_nonempty path filename : path ≠ "" → path_join path filename ≠ "".
Proof.
  intros Hpath. unfold path_join.
  destruct (String.prefix "/" filename) eqn:Hprefix.
  - by destruct filename.
  - destruct (_ || _); by apply append_nonempty.
Qed.

(** The block [with atomic_write(...)]: the whole text is put at the path,
    or an exception comes out and nothing has changed. *)
Lemma atomic_write_path_cases p body fs :
  (∃ text, body "" = Returned text ∧
     Atomicwrites.atomic_write_path p body fs = (<[p := File text]> fs, Returned tt))
  ∨ (∃ e, Atomicwrites.atomic_write_path p body fs = (fs, Raised e) ∧
       (is_OSError e = true ∨ body "" = Raised e)).
Proof.
  unfold Atomicwrites.atomic_write_path.
  destruct p as [|c parent]; [right; eexists; split; [done|by left]|].
  destruct (stat fs parent) as [[?|[]]|];
    try (right; eexists; split; [done|by left]).
  destruct (body "") as [text|e] eqn:Hbody.
  - destruct (fs !! (c :: parent)) as [[?|?]|].
    + left. by exists text.
    + right. eexists. split; [done|by left].
    + left. by exists text.
  - right. exists e. split; [done|by right].
Qed.

Section Save.
Variable version : string.

Lemma to_csv_call_cases frame f kwargs :
  (kw_na_rep kwargs = None ∧
   to_csv_call frame f kwargs =
     Returned (f +:+ (if default true (kw_header kwargs)
                      then Pandas.csv_header (default "," (kw_sep kwargs))
                             (default true (kw_index kwargs)) frame
                      else "")
                 +:+ String.concat ""
                       (Pandas.csv_row (default "," (kw_sep kwargs)) "--"
                          (default true (kw_index kwargs)) <$> Pandas.rows frame)))
  ∨ (∃ msg, to_csv_call frame f kwargs = Raised (TypeError msg)).
Proof.
  unfold to_csv_call, Pandas.to_csv.
  destruct (kw_na_rep kwargs); [right; by eexists|].
  destruct (_ =? 1); [by left|right; by eexists].
Qed.

Lemma save_no_frame df path filename comment kwargs w :
  nonempty_frame df = None →
  save_df_as_csv version df path filename comment kwargs w =
    (World (fs w) (stdout w ++ ["no data to save..."]) (clock w), Returned "").
Proof. intros Hdf. unfold save_df_as_csv. by rewrite Hdf. Qed.

Local Abbreviation header_text := (header_text version).

(** [save_df_as_csv] on a frame with rows when [create_dir] fails. *)
Lemma save_not_created df frame path filename comment kwargs w w1 :
  nonempty_frame df = Some frame →
  create_dir path w = (w1, Returned false) →
  save_df_as_csv version df path filename comment kwargs w = (w1, Returned "").
Proof.
  intros Hdf Hcreate. unfold save_df_as_csv. rewrite Hdf.
  unfold try_except, bind. by rewrite Hcreate.
Qed.

(** ... when the joined path names no file. *)
Lemma save_no_destination df frame path filename comment kwargs w w1 :
  nonempty_frame df = Some frame →
  create_dir path w = (w1, Returned true) →
  resolve (path_join path filename) = None →
  save_df_as_csv version df path filename comment kwargs w =
    (World (fs w1) (stdout w1 ++ ["no path specified"]) (clock w1), Returned "").
Proof.
  intros Hdf Hcreate Hp. unfold save_df_as_csv. rewrite Hdf.
  unfold try_except, bind. rewrite Hcreate. cbn [negb].
  unfold path_relpath. by rewrite Hp.
Qed.

(** ... and when it names one: the outcome is that of the [with] block. *)
Lemma save_destination df frame path filename comment kwargs w w1 p :
  nonempty_frame df = Some frame →
  create_dir path w = (w1, Returned true) →
  resolve (path_join path filename) = Some p →
  save_df_as_csv version df path filename comment kwargs w =
    let out := stdout w1 ++ ["Saving " +:+ relative p] in
    match Atomicwrites.atomic_write_path p
            (λ f, to_csv_call frame (f +:+ header_text (clock w1) comment) kwargs)
            (fs w1) with
    | (fs2, Returned _) => (World fs2 out (clock w1), Returned (path_join path filename))
    | (fs2, Raised e) =>
        if is_Exception e
        then (World fs2 (out ++ [exn_str e]) (clock w1), Returned "")
        else (World fs2 out (clock w1), Raised e)
    end.
Proof.
  intros Hdf Hcreate Hp. unfold save_df_as_csv. rewrite Hdf.
  unfold try_except, bind. rewrite Hcreate. cbn [negb].
  unfold path_relpath. rewrite Hp.
  unfold ret, print, utcnow, Atomicwrites.atomic_write, lift_fs.
  rewrite Hp. cbn [fs stdout clock]. unfold header_text.
  by destruct (Atomicwrites.atomic_write_path p _ (fs w1)) as [fs2 [[]|e]].
Qed.

(** The ways through [save_df_as_csv] for a frame with rows: it gives up
    with the empty string, having made directories at most, or it writes
    the file and returns its path. *)
Lemma save_frame_cases df frame path filename comment kwargs w :
  nonempty_frame df = Some frame →
  (∃ w', save_df_as_csv version df path filename comment kwargs w = (w', Returned "") ∧
     extends (fs w) (fs w'))
  ∨ (∃ fs1 p text,
       create_dir path w = (World fs1 (stdout w) (clock w), Returned true) ∧
       extends (fs w) fs1 ∧ path ≠ "" ∧
       resolve (path_join path filename) = Some p ∧
       to_csv_call frame (header_text (clock w) comment) kwargs = Returned text ∧
       save_df_as_csv version df path filename comment kwargs w =
         (World (<[p := File text]> fs1)
            (stdout w ++ ["Saving " +:+ relative p]) (clock w),
          Returned (path_join path filename))).
Proof.
  intros Hdf.
  destruct (create_dir_cases path w)
    as [(fs1 & q & Hrun & Hq & Hdir & Hext & Hcreate)
       |(fs1 & e & Hrun & Hexc & Hext & Hcreate)].
  2:{ left. eexists. split; [by eapply save_not_created|done]. }
  destruct (resolve (path_join path filename)) as [p|] eqn:Hp.
  2:{ left. eexists. split; [by eapply save_no_destination|done]. }
  rewrite (save_destination df frame path filename comment kwargs w _ p Hdf Hcreate Hp).
  cbn [fs stdout clock].
  destruct (atomic_write_path_cases p
              (λ f, to_csv_call frame (f +:+ header_text (clock w) comment) kwargs) fs1)
    as [(text & Htext & ->)|(e & -> & He)].
  - right. exists fs1, p, text. split; [done|]. split; [done|].
    split; [by eapply resolve_nonempty|]. done.
  - left. assert (is_Exception e = true) as ->.
    { destruct He as [Hos|Hbody]; [by apply is_OSError_Exception|].
      cbn beta in Hbody.
      destruct (to_csv_call_cases frame ("" +:+ header_text (clock w) comment) kwargs)
        as [[_ Hok]|[msg Hbad]]; [congruence|].
      rewrite Hbad in Hbody. by injection Hbody as <-. }
    eexists. split; [done|done].
Qed.
End Save.
End SaveSpec.

Module SaveClaims.
Import Os Utils OsFacts CreateDirSpec SaveSpec.

Section Claims.
Variable version : string.
Implicit Types (w : world) (path filename comment : string)
  (kwargs : to_csv_kwargs) (frame : Pandas.DataFrame) (df : pyobj).

(** C4. [save_df_as_csv] returns a string for every argument and every
    state of the file system, and never raises.  The string is empty and
    the regular files are what they were, or it is the directory joined
    with the file name, is not empty, and a file is at that path.  When
    [create_dir] returns [False] the string is empty and no file was
    written. *)
Theorem save_df_as_csv_returns df path filename comment kwargs w :
  ∃ w' r,
    save_df_as_csv version df path filename comment kwargs w = (w', Returned r) ∧
    (r = "" ∧ same_files (fs w) (fs w')
     ∨ r ≠ "" ∧ r = path_join path filename ∧
       ∃ p text, resolve r = Some p ∧ fs w' !! p = Some (File text)) ∧
    ((create_dir path w).2 = Returned false →
     r = "" ∧ same_files (fs w) (fs w')).
Proof.
  destruct (nonempty_frame df) as [frame|] eqn:Hdf.
  2:{ rewrite (save_no_frame version df path filename comment kwargs w Hdf).
      eexists _, _. split; [done|].
      assert (same_files (fs w) (fs w)) as Hsame by apply extends_same_files, extends_refl.
      split; [by left|done]. }
  destruct (save_frame_cases version df frame path filename comment kwargs w Hdf)
    as [(w' & -> & Hext)|(fs1 & p & text & Hcreate & Hext & Hpath & Hp & _ & ->)].
  - exists w', "". split; [done|].
    pose proof (extends_same_files _ _ Hext) as Hsame.
    split; [by left|done].
  - eexists _, _. split; [done|]. split.
    + right. split; [by apply path_join_nonempty|]. split; [done|].
      exists p, text. split; [done|]. simpl. by rewrite lookup_insert_eq.
    + rewrite Hcreate. done.
Qed.


(** C6. On a frame with no row [save_df_as_csv] prints that there is no
    data to save and returns the empty string; the file system is what it
    was: no directory is made and no file is written. *)
Theorem save_empty_frame frame path filename comment kwargs w :
  Pandas.len frame = 0 →
  save_df_as_csv version (PyDataFrame frame) path filename comment kwargs w =
    (World (fs w) (stdout w ++ ["no data to save..."]) (clock w), Returned "").
Proof.
  intros Hlen. apply save_no_frame. simpl. by rewrite Hlen.
Qed.

(** C10. On a first argument that is no [DataFrame], [save_df_as_csv]
    does what it does on a frame with no row: it prints that there is no
    data to save and returns the empty string, the file system is what it
    was, and nothing is raised. *)
Theorem save_not_a_frame df path filename comment kwargs w :
  (∀ frame, df ≠ PyDataFrame frame) →
  save_df_as_csv version df path filename comment kwargs w =
    (World (fs w) (stdout w ++ ["no data to save..."]) (clock w), Returned "")
  ∧ save_df_as_csv version df path filename comment kwargs w =
    save_df_as_csv version (PyDataFrame no_rows) path filename comment kwargs w.
Proof.
  intros Hdf.
  assert (nonempty_frame df = None) as Hnone.
  { destruct df; try done. by destruct (Hdf df). }
  split; by rewrite (save_no_frame version df path filename comment kwargs w Hnone).
Qed.
End Claims.

Lemma save_df_as_csv_returns_witness :
  ∃ w' r,
    save_df_as_csv "1.2" (PyDataFrame snps) "ro/out" "snps.csv" "" no_kwargs guarded
      = (w', Returned r) ∧
    (create_dir "ro/out" guarded).2 = Returned false ∧
    r = "" ∧ same_files (fs guarded) (fs w').
Proof.
  destruct (save_df_as_csv_returns "1.2" (PyDataFrame snps) "ro/out" "snps.csv" ""
              no_kwargs guarded) as (w' & r & Hsave & _ & Hfail).
  exists w', r. split; [exact Hsave|].
  assert ((create_dir "ro/out" guarded).2 = Returned false) as Hcreate
    by (vm_compute; reflexivity).
  split; [exact Hcreate|]. exact (Hfail Hcreate).
Defined.



Lemma save_empty_frame_witness :
  save_df_as_csv "1.2" (PyDataFrame no_rows) "out" "snps.csv" "" no_kwargs guarded =
    (World (fs guarded) ["no data to save..."] (clock guarded), Returned "").
Proof.
  apply (save_empty_frame "1.2" no_rows "out" "snps.csv" "" no_kwargs guarded).
  reflexivity.
Defined.

Lemma save_not_a_frame_witness :
  save_df_as_csv "1.2" PyNone "out" "snps.csv" "" no_kwargs guarded =
    (World (fs guarded) ["no data to save..."] (clock guarded), Returned "")
  ∧ save_df_as_csv "1.2" PyNone "out" "snps.csv" "" no_kwargs guarded =
    save_df_as_csv "1.2" (PyDataFrame no_rows) "out" "snps.csv" "" no_kwargs guarded.
Proof.
  apply (save_not_a_frame "1.2" PyNone "out" "snps.csv" "" no_kwargs guarded).
  intros frame. discriminate.
Defined.

(** The file written for [snps] with no keyword argument. *)
Example saved_snps :
  file_text "1.2" (clock guarded) "" "," true true snps =
    "# Generated by lineage v1.2, https://github.com/apriha/lineage" +:+ nl +:+
    "# Generated at 2019-03-07 09:05:00 UTC" +:+ nl +:+
    "rsid,chrom,pos" +:+ nl +:+
    "rs1,1,--" +:+ nl +:+
    "rs2,--,5" +:+ nl.
Proof. reflexivity. Qed.
End SaveClaims.

(** ** More on [Parallelizer] *)
Module ParallelizerMore.
Import Parallelizer ParallelizerSpec.

Section More.
Context {A B : Type}.
Variable pyNone : B.
Implicit Types (f : A → outcome B) (g : A → B) (tasks l chunk : list A)
  (t : A) (w : Pool.world) (self : Parallelizer.t) (e : exn).

(** A task that makes [mapstar] raise. *)
Lemma mapstar_Raised f l e :
  Pool.mapstar f l = Raised e →
  ∃ i t, l !! i = Some t ∧ f t = Raised e ∧
         ∀ j t', j < i → l !! j = Some t' → ∃ y, f t' = Returned y.
Proof.
  induction l as [|x l IH]; [done|]. simpl.
  destruct (f x) as [y|e'] eqn:Hx.
  - destruct (Pool.mapstar f l) as [ys|e'']; [done|].
    intros [= ->]. destruct (IH eq_refl) as (i & t & Hi & Ht & Hbefore).
    exists (S i), t. split; [done|]. split; [done|].
    intros [|j] t' Hj Hj'.
    + injection Hj' as <-. by exists y.
    + apply (Hbefore j); [lia|done].
  - intros [= ->]. exists 0, x. split; [done|]. split; [done|]. intros; lia.
Qed.

Lemma mapstar_first_failure f l i t e :
  l !! i = Some t → f t = Raised e →
  (∀ j t', j < i → l !! j = Some t' → ∃ y, f t' = Returned y) →
  Pool.mapstar f l = Raised e.
Proof.
  revert i. induction l as [|x l IH]; intros i Hi Ht Hbefore; [done|].
  destruct i as [|i]; simpl.
  - injection Hi as ->. by rewrite Ht.
  - destruct (Hbefore 0 x) as [y ->]; [lia|done|].
    rewrite (IH i Hi Ht); [done|].
    intros j t' Hj Hj'. apply (Hbefore (S j)); [lia|done].
Qed.

(** The chunks hold tasks only. *)
Lemma get_tasks_elem fuel size l i chunk t :
  Pool.get_tasks fuel size l !! i = Some chunk → t ∈ chunk → t ∈ l.
Proof.
  revert l i. induction fuel as [|fuel IH]; intros l i Hi Ht; [done|].
  simpl in Hi. destruct (take size l) as [|x xs] eqn:Htake; [done|].
  destruct i as [|i]; simpl in Hi.
  - injection Hi as <-. rewrite <- Htake in Ht.
    apply elem_of_take in Ht as (k & Hk & _). by eapply list_elem_of_lookup_2.
  - apply IH in Hi; [|done]. apply list_elem_of_lookup in Hi as [k Hk].
    rewrite lookup_drop in Hk. by eapply list_elem_of_lookup_2.
Qed.

Section Kept.
Variables (f : A → outcome B) (tasks : list A) (chunks : list (list A)).
Hypothesis chunks_of_tasks : ∀ i chunk t, chunks !! i = Some chunk → t ∈ chunk → t ∈ tasks.

(** The exception a [MapResult] keeps was raised by a task, and a result
    that has failed keeps one. *)
Lemma kept_foldl σ (r : Pool.MapResult (B:=B)) :
  Pool.kept_from_task f tasks r →
  Pool.kept_from_task f tasks
    (foldl (λ r i, Pool.MapResult_set i (Pool.mapstar f (option.default [] (chunks !! i))) r) r σ).
Proof.
  revert r. induction σ as [|i σ IH]; intros r Hr; [done|].
  simpl. apply IH. clear IH. destruct Hr as [Hexc Hfail].
  unfold Pool.MapResult_set.
  destruct (Pool.mapstar f (option.default [] (chunks !! i))) as [ys|e] eqn:Hchunk;
    destruct (Pool._success r) eqn:Hs; split; simpl.
  - intros e He. destruct (Pool._value r); [done|]. by apply Hexc.
  - done.
  - done.
  - intros _. by apply Hfail.
  - intros e' [= <-]. apply mapstar_Raised in Hchunk as (k & t & Hk & Ht & _).
    exists t. split; [|done].
    destruct (chunks !! i) as [chunk|] eqn:Hi; [|done].
    eapply chunks_of_tasks; [done|]. by eapply list_elem_of_lookup_2.
  - intros _. by eexists.
  - done.
  - intros _. by apply Hfail.
Qed.
End Kept.

(** When [Pool.map] raises, it raises what one of the tasks raised. *)
Lemma map_Raised_from_task p f tasks w w' e :
  Pool.map pyNone p f tasks w = (w', Raised e) →
  ∃ t, t ∈ tasks ∧ f t = Raised e.
Proof.
  unfold Pool.map. intros [= _ Hget].
  set (c := Pool.map_chunksize (length tasks) (Pool._processes p)) in *.
  set (chunks := Pool.get_tasks (length tasks) c tasks) in *.
  match type of Hget with Pool.MapResult_get ?r = _ =>
    assert (Pool.kept_from_task f tasks r) as [Hexc Hfail] end.
  { apply kept_foldl.
    - intros i chunk t Hi Ht. by eapply get_tasks_elem.
    - split; [done|done]. }
  unfold Pool.MapResult_get in Hget.
  match type of Hget with context [Pool._success ?r] =>
    destruct (Pool._success r) eqn:Hs, (Pool._value r) as [l|e'] eqn:Hv end;
    try done.
  - injection Hget as ->. by apply Hexc.
  - destruct (Hfail eq_refl) as [e'' He'']. done.
  - injection Hget as ->. by apply Hexc.
Qed.

(** X1. No pool outlives a call of the parallel runner.  Whatever the
    tasks do, return or raise, the call starts one pool of the worker count
    and terminates it before it hands over its outcome; with a worker count
    below one it starts none. *)
Theorem pool_released processes f tasks w :
  ∃ w' r,
    __call__ pyNone (Build true processes) f tasks w = (w', r) ∧
    Pool.cpu_count w' = Pool.cpu_count w ∧
    Pool.pool_log w' =
      Pool.pool_log w ++
      (if (Pool.effective_processes w processes <? 1)%Z then []
       else let n := Z.to_nat (Pool.effective_processes w processes) in
            [Pool.Spawned n; Pool.Terminated n]).
Proof.
  destruct (Z.ltb_spec (Pool.effective_processes w processes) 1) as [Hlt|Hge].
  - rewrite (call_parallel_invalid pyNone processes f tasks w Hlt).
    eexists _, _. split; [done|]. split; [done|]. by rewrite app_nil_r.
  - rewrite (call_parallel pyNone processes f tasks w Hge).
    eexists _, _. split; [done|]. split; done.
Qed.


(** X3. The sequential runner fails late and in order.  The call itself
    returns for every function, with the world as it was; the caller who
    takes the elements gets the exception [e] exactly when some task raises
    [e] and every task before it returns. *)
Theorem sequential_first_failure processes f tasks w e :
  (∃ r, __call__ pyNone (Build false processes) f tasks w = (w, Returned r)) ∧
  (elements pyNone (Build false processes) f tasks w = Raised e ↔
   ∃ i t, tasks !! i = Some t ∧ f t = Raised e ∧
          ∀ j t', j < i → tasks !! j = Some t' → ∃ y, f t' = Returned y).
Proof.
  split; [by eexists|]. rewrite elements_sequential. split.
  - apply mapstar_Raised.
  - intros (i & t & Hi & Ht & Hbefore). by eapply mapstar_first_failure.
Qed.

End More.
End ParallelizerMore.

Module ParallelizerMoreWitnesses.
Import Parallelizer ParallelizerMore.


End ParallelizerMoreWitnesses.

(** ** More on [Singleton] *)
Module SingletonMore.
Import Singleton SingletonSpec.

Section More.
Context {Args : Type}.
Variable constructor : string → Args → option exn.
Implicit Types (st : state (Args:=Args)) (cls : string) (args : Args) (o : nat)
  (calls later : list (string * Args)).

Local Abbreviation call := (__call__ constructor).
Local Abbreviation exec := (exec constructor).

(** Objects stay where they are: a call adds at most one object at the end
    of the heap. *)
Lemma heap_call cls args st o ob :
  heap st !! o = Some ob → heap (call cls args st).1 !! o = Some ob.
Proof.
  intros Hob.
  destruct (call_cases constructor cls args st)
    as [(o' & _ & ->)|[(_ & _ & ->)|(e & _ & ->)]]; simpl; [done| |done].
  by apply lookup_app_l_Some.
Qed.

Lemma heap_exec calls st o ob :
  heap st !! o = Some ob → heap (exec calls st) !! o = Some ob.
Proof.
  revert st. induction calls as [|[cls args] calls IH]; intros st Hob; [done|].
  simpl. apply IH. by apply heap_call.
Qed.

(** A call that returns leaves the class registered with what it returns. *)
Lemma call_Returned cls args st st' o :
  call cls args st = (st', Returned o) →
  _instances st' !! cls = Some o ∧
  (_instances st !! cls = None → heap st' !! o = Some (Object cls args)).
Proof.
  intros Hcall.
  destruct (call_cases constructor cls args st)
    as [(o' & Ho' & Heq)|[(Hnew & _ & Heq)|(e & _ & Heq)]];
    rewrite Heq in Hcall; [| |done]; injection Hcall as <- <-.
  - split; [done|]. congruence.
  - simpl. split; [by rewrite lookup_insert_eq|]. intros _.
    by rewrite lookup_app_r, Nat.sub_diag by lia.
Qed.

(** X5. The arguments of later instantiations are dropped.  When an
    instantiation finds its class without instance and builds [o] from
    [args], then after any further instantiations an instantiation of the
    class with other arguments [args'] returns [o], and [o] is still the
    object built from [args]. *)
Theorem singleton_keeps_first_arguments calls later cls args args' st' o :
  let st := exec calls initial in
  _instances st !! cls = None →
  call cls args st = (st', Returned o) →
  let st'' := exec later st' in
  call cls args' st'' = (st'', Returned o) ∧
  heap st'' !! o = Some (Object cls args).
Proof.
  intros st Hnew Hcall st''.
  destruct (call_Returned cls args st st' o Hcall) as [Hreg Hbuilt].
  destruct (registered_exec constructor cls o later st' Hreg) as [Hreg'' _].
  split; [by apply call_registered|]. by apply heap_exec, Hbuilt.
Qed.


(** A class is registered when one of its constructor calls has returned,
    and only then. *)
Lemma registered_iff_call st cls args :
  registered_when_constructed constructor st →
  registered_when_constructed constructor (call cls args st).1.
Proof.
  intros Hst cls'.
  destruct (_instances st !! cls) as [o|] eqn:Hreg.
  { by rewrite (call_registered constructor cls args st o Hreg). }
  destruct (constructor cls args) as [e|] eqn:Hc.
  - rewrite (call_raises constructor cls args st e Hreg Hc). simpl.
    rewrite (Hst cls'). split; intros (a & Ha & Hok); exists a; (split; [|done]).
    + apply elem_of_app. by left.
    + apply elem_of_app in Ha as [Ha|Ha]; [done|].
      apply list_elem_of_singleton in Ha. congruence.
  - rewrite (call_constructs constructor cls args st Hreg Hc). simpl.
    rewrite lookup_insert. case_decide as Hcls.
    + subst cls'. split; [|by eexists]. intros _. exists args.
      split; [|done]. apply elem_of_app. right. by apply list_elem_of_singleton.
    + rewrite (Hst cls'). split; intros (a & Ha & Hok); exists a; (split; [|done]).
      * apply elem_of_app. by left.
      * apply elem_of_app in Ha as [Ha|Ha]; [done|].
        apply list_elem_of_singleton in Ha. congruence.
Qed.

Lemma registered_iff_exec calls st :
  registered_when_constructed constructor st →
  registered_when_constructed constructor (exec calls st).
Proof.
  revert st. induction calls as [|[cls args] calls IH]; intros st Hst; [done|].
  simpl. by apply IH, registered_iff_call.
Qed.

(** X7. What the registry holds is what the constructors have built.  In
    every state of a process, a class has a registered instance exactly
    when one of the constructor calls made for it has returned; so a class
    whose constructor has raised each time is still without instance. *)
Theorem singleton_registered_iff calls cls :
  let st := exec calls initial in
  is_Some (_instances st !! cls) ↔
  ∃ args, (cls, args) ∈ constructed st ∧ constructor cls args = None.
Proof.
  apply registered_iff_exec. intros cls'. simpl. split.
  - rewrite lookup_empty. by intros [? ?].
  - intros (a & Ha & _). by apply elem_of_nil in Ha.
Qed.

(** X8. A failed instantiation is tried again.  When an instantiation
    finds its class without instance and the constructor raises [e], the
    caller gets [e], nothing is registered and no object is kept; the next
    instantiation of the class runs the constructor again, and if that one
    returns, what it builds is the one instance of the class. *)
Theorem singleton_retries calls cls args args' e :
  let st := exec calls initial in
  _instances st !! cls = None →
  constructor cls args = Some e →
  constructor cls args' = None →
  ∃ st1 st2 o,
    call cls args st = (st1, Raised e) ∧
    _instances st1 = _instances st ∧ heap st1 = heap st ∧
    call cls args' st1 = (st2, Returned o) ∧
    constructions_of cls st2 = constructions_of cls st ++ [(cls, args); (cls, args')] ∧
    heap st2 !! o = Some (Object cls args') ∧
    instances_of cls st2 = [o].
Proof.
  intros st Hnew Hraise Hok.
  rewrite (call_raises constructor cls args st e Hnew Hraise).
  eexists _, _, _. split; [done|]. split; [done|]. split; [done|].
  rewrite call_constructs by done. simpl. split; [done|].
  split; [|split].
  - unfold constructions_of. simpl.
    rewrite !filter_app, !filter_cons_True, !filter_nil by done.
    by rewrite <- app_assoc.
  - simpl. by rewrite lookup_app_r, Nat.sub_diag by lia.
  - apply registered_instance; [|simpl; by rewrite lookup_insert_eq].
    match goal with |- registry_sound ?s =>
      replace s with (call cls args' (call cls args st).1).1 end.
    { apply sound_call, sound_call, sound_exec, sound_initial. }
    rewrite (call_raises constructor cls args st e Hnew Hraise). simpl.
    by rewrite call_constructs.
Qed.
End More.
End SingletonMore.

Module SingletonMoreWitnesses.
Import Singleton SingletonMore.

Lemma singleton_keeps_first_arguments_witness :
  let st := exec refuses_zero [("Config", 0); ("Other", 1)] initial in
  let st' := (__call__ refuses_zero "Config" 5 st).1 in
  let st'' := exec refuses_zero [("Other", 2); ("Config", 7)] st' in
  __call__ refuses_zero "Config" 9 st'' = (st'', Returned 1) ∧
  heap st'' !! 1 = Some (Object "Config" 5).
Proof.
  intros st st' st''.
  apply (singleton_keeps_first_arguments refuses_zero
           [("Config", 0); ("Other", 1)] [("Other", 2); ("Config", 7)]
           "Config" 5 9 st' 1).
  - vm_compute. reflexivity.
  - vm_compute. reflexivity.
Defined.


Lemma singleton_retries_witness :
  ∃ st1 st2 o,
    __call__ refuses_zero "Config" 0 (exec refuses_zero [("Other", 1)] initial)
      = (st1, Raised (ValueError "zero")) ∧
    __call__ refuses_zero "Config" 5 st1 = (st2, Returned o) ∧
    heap st2 !! o = Some (Object "Config" 5) ∧
    instances_of "Config" st2 = [o].
Proof.
  destruct (singleton_retries refuses_zero [("Other", 1)] "Config" 0 5
              (ValueError "zero")) as (st1 & st2 & o & H1 & _ & _ & H2 & _ & H3 & H4).
  - vm_compute. reflexivity.
  - reflexivity.
  - reflexivity.
  - exists st1, st2, o. split; [exact H1|]. split; [exact H2|].
    split; [exact H3|exact H4].
Defined.
End SingletonMoreWitnesses.

(** ** More on [create_dir] *)
Module CreateDirMore.
Import Os Utils OsFacts CreateDirSpec.

Implicit Types (fs : filesystem) (p q name head : list string) (w : world)
  (path : string).

Lemma extends_isdir fs fs' p :
  extends fs fs' → isdir_path fs p = true → isdir_path fs' p = true.
Proof.
  intros Hext. unfold isdir_path.
  destruct (stat fs p) as [node|] eqn:Hs; [|done].
  by rewrite (extends_stat fs fs' p node Hext Hs).
Qed.

Lemma well_formed_mkdir name fs fs' r :
  mkdir_exist_ok name fs = (fs', r) → well_formed fs → well_formed fs'.
Proof.
  unfold mkdir_exist_ok, try_except. intros Hrun Hwf.
  destruct (mkdir_path_cases name fs)
    as [(c & parent & -> & Hparent & Hfree & Heq)|(code & Heq & _)];
    rewrite Heq in Hrun; simpl in Hrun.
  - injection Hrun as <- <-. intros c' p' Hsome.
    destruct (decide (c' :: p' = c :: parent)) as [[= -> ->]|Hne].
    + apply (extends_isdir fs); [by apply extends_insert|].
      unfold isdir_path. by rewrite Hparent.
    + rewrite lookup_insert_ne in Hsome by done.
      apply (extends_isdir fs); [by apply extends_insert|by eapply Hwf].
  - by destruct (isdir_path fs name); injection Hrun as <- <-.
Qed.

Lemma well_formed_makedirs name fs fs' r :
  makedirs_path name fs = (fs', r) → well_formed fs → well_formed fs'.
Proof.
  revert fs fs' r. induction name as [|c head IH]; intros fs fs' r Hrun Hwf.
  - by eapply well_formed_mkdir.
  - destruct (makedirs_cons_cases c head fs)
      as [[_ Heq]|[(_ & fa & Hrec & Heq)|[(_ & fa & e & Hrec & _ & Heq)
         |(_ & fa & e & Hrec & _ & Heq)]]]; rewrite Heq in Hrun.
    + by eapply well_formed_mkdir.
    + eapply well_formed_mkdir; [done|]. by eapply IH.
    + injection Hrun as <- <-. by eapply IH.
    + eapply well_formed_mkdir; [done|]. by eapply IH.
Qed.

(** In a well-formed tree a directory lies in directories up to the root. *)
Lemma well_formed_above fs p q :
  well_formed fs → isdir_path fs p = true → q `suffix_of` p →
  isdir_path fs q = true.
Proof.
  intros Hwf. induction p as [|c p IH]; intros Hdir Hq.
  - apply suffix_nil_inv in Hq as ->. done.
  - destruct q as [|c' q']; [done|].
    apply suffix_cons_inv in Hq as [[= -> ->]|Hq]; [done|].
    apply IH; [|done]. apply (Hwf c).
    unfold isdir_path in Hdir. simpl in Hdir.
    by destruct (fs !! (c :: p)).
Qed.

(** In a well-formed tree [makedirs] returns exactly on the paths where a
    directory is or can be made. *)
Lemma makedirs_path_can_make name fs :
  well_formed fs →
  (∃ fs', makedirs_path name fs = (fs', Returned tt)) ↔ can_make fs name = true.
Proof.
  intros Hwf. induction name as [|c head IH].
  - split; [done|]. intros _. by exists fs.
  - assert (∀ fa, stat fa head = stat fs head → fa !! (c :: head) = fs !! (c :: head) →
            is_Some (stat fs head) →
            (∃ fs', mkdir_exist_ok (c :: head) fa = (fs', Returned tt)) ↔
            can_make fs (c :: head) = true) as Hlast.
    { intros fa Hhead Hself [node Hnode].
      unfold mkdir_exist_ok, try_except, mkdir_path, isdir_path. cbn [can_make stat].
      rewrite Hhead, Hself, Hnode.
      destruct node as [text|writable].
      - destruct (fs !! (c :: head)) as [[?|?]|] eqn:Hp; simpl; rewrite ?Hself, ?Hp;
          try (split; [by intros [? ?]|done]).
        assert (isdir_path fs head = true) as Hdir by (apply (Hwf c); by rewrite Hp).
        unfold isdir_path in Hdir. by rewrite Hnode in Hdir.
      - destruct (fs !! (c :: head)) as [[?|?]|] eqn:Hp; simpl; rewrite ?Hself, ?Hp.
        + split; [by intros [? ?]|done].
        + split; [done|by eexists].
        + destruct writable; simpl; rewrite ?Hself, ?Hp;
            [split; [done|by eexists]|split; [by intros [? ?]|done]]. }
    destruct (makedirs_cons_cases c head fs)
      as [[Hex Heq]|[(Hex & fa & Hrec & Heq)|[(Hex & fa & e & Hrec & Hnfee & Heq)
         |(Hex & fa & e & Hrec & Hfee & Heq)]]]; rewrite Heq.
    + apply Hlast; [done|done|]. unfold exists_path in Hex.
      by destruct (stat fs head).
    + assert (stat fs head = None) as Hnone.
      { unfold exists_path in Hex. by destruct (stat fs head). }
      assert (fs !! (c :: head) = None) as Hfree.
      { destruct (fs !! (c :: head)) eqn:Hp; [|done].
        assert (isdir_path fs head = true) as Hdir by (apply (Hwf c); by rewrite Hp).
        unfold isdir_path in Hdir. by rewrite Hnone in Hdir. }
      assert (fa !! (c :: head) = None) as Hfree'.
      { rewrite <- Hfree. eapply makedirs_path_longer; [done|]. simpl. lia. }
      assert (stat fa head = Some (Dir true)) as Hhead.
      { pose proof (makedirs_path_Returned _ _ _ Hrec) as Hdir.
        pose proof (makedirs_path_extends _ _ _ _ Hrec) as Hext.
        destruct head as [|c' h']; [done|]. simpl in *.
        destruct (Hext (c' :: h')) as [Hsame|[_ Hnew]]; [|done].
        unfold isdir_path in Hdir. simpl in Hdir. by rewrite Hsame, Hnone in Hdir. }
      cbn [can_make]. rewrite Hfree, Hnone.
      assert (can_make fs head = true) as -> by (apply IH; by eexists).
      split; [done|]. intros _.
      unfold mkdir_exist_ok, try_except, mkdir_path. rewrite Hhead, Hfree'.
      by eexists.
    + assert (stat fs head = None) as Hnone.
      { unfold exists_path in Hex. by destruct (stat fs head). }
      assert (fs !! (c :: head) = None) as Hfree.
      { destruct (fs !! (c :: head)) eqn:Hp; [|done].
        assert (isdir_path fs head = true) as Hdir by (apply (Hwf c); by rewrite Hp).
        unfold isdir_path in Hdir. by rewrite Hnone in Hdir. }
      cbn [can_make]. rewrite Hfree, Hnone.
      split; [by intros [? ?]|]. intros Hcan.
      apply IH in Hcan as [fs' Hret]. congruence.
    + destruct (makedirs_path_Raised _ _ _ _ Hrec) as (_ & _ & Htaken).
      rewrite (Htaken Hfee) in Hex. done.
Qed.

(** X9. [create_dir] only adds directories.  On every path and in every
    state, whether it returns [True] or [False], each entry of the tree is
    as it was or is a directory that was not there before: nothing is
    removed or overwritten and no regular file appears.  The clock is left
    alone, and nothing is printed when it returns [True]. *)
Theorem create_dir_only_adds path w :
  ∃ w1 b,
    create_dir path w = (w1, Returned b) ∧
    extends (fs w) (fs w1) ∧
    same_files (fs w) (fs w1) ∧
    clock w1 = clock w ∧
    if b then stdout w1 = stdout w else ∃ msg, stdout w1 = stdout w ++ [msg].
Proof.
  destruct (create_dir_cases path w)
    as [(fs' & p & _ & _ & _ & Hext & ->)|(fs' & e & _ & _ & Hext & ->)];
    eexists _, _; (split; [done|]); (split; [done|]);
    (split; [by apply extends_same_files|]); (split; [done|]); simpl; [done|by eexists].
Qed.

(** X10. [create_dir] keeps the tree well formed, and when it returns
    [True] the path it was given and every path above it are directories. *)
Theorem create_dir_keeps_tree path w :
  well_formed (fs w) →
  ∃ w1 b,
    create_dir path w = (w1, Returned b) ∧
    well_formed (fs w1) ∧
    if b
    then ∃ p, resolve path = Some p ∧
              ∀ q, q `suffix_of` p → isdir_path (fs w1) q = true
    else True.
Proof.
  intros Hwf.
  assert (∀ fs' r, makedirs_fs path (fs w) = (fs', r) → well_formed fs') as Hkeep.
  { unfold makedirs_fs. intros fs' r. destruct (resolve path) as [p|].
    - intros Hrun. by eapply well_formed_makedirs.
    - unfold raise. by intros [= <- <-]. }
  destruct (create_dir_cases path w)
    as [(fs' & p & Hrun & Hp & Hdir & _ & ->)|(fs' & e & Hrun & _ & _ & ->)];
    eexists _, _; (split; [done|]); (split; [by eapply Hkeep|]); [|done].
  exists p. split; [done|]. intros q Hq. simpl.
  eapply well_formed_above; [by eapply Hkeep|done|done].
Qed.


Lemma guarded_well_formed : well_formed (fs guarded).
Proof.
  intros c p [node Hnode]. unfold guarded in Hnode. simpl in Hnode.
  rewrite lookup_insert in Hnode. case_decide as H1; [by injection H1 as <- <-|].
  rewrite lookup_insert in Hnode. case_decide as H2; [by injection H2 as <- <-|].
  by rewrite lookup_empty in Hnode.
Qed.

Lemma create_dir_keeps_tree_witness :
  ∃ w1 b,
    create_dir "out/reports" guarded = (w1, Returned b) ∧
    well_formed (fs w1) ∧
    if b
    then ∃ p, resolve "out/reports" = Some p ∧
              ∀ q, q `suffix_of` p → isdir_path (fs w1) q = true
    else True.
Proof. apply (create_dir_keeps_tree "out/reports" guarded), guarded_well_formed. Defined.


Example can_make_guarded :
  can_make (fs guarded) ["reports"; "out"] = true ∧
  can_make (fs guarded) ["reports"; "ro"] = false ∧
  can_make (fs guarded) ["ro"] = true ∧
  can_make (fs guarded) ["notes"] = false ∧
  can_make (fs guarded) ["reports"; "notes"] = false.
Proof. repeat split; vm_compute; reflexivity. Qed.
End CreateDirMore.

(** ** More on [save_df_as_csv] *)
Module SaveMore.
Import Os Utils OsFacts CreateDirSpec CreateDirMore SaveSpec.

Implicit Types (fs : filesystem) (w : world) (path filename comment : string)
  (kwargs : to_csv_kwargs) (frame : Pandas.DataFrame) (df : pyobj)
  (p q : list string).

(** The [with atomic_write(...)] block puts the text at the path exactly
    when the path lies in a directory that may be written, is no directory
    itself, and the body returns. *)
Lemma atomic_write_path_detail p body fs :
  (∃ c parent text,
     p = c :: parent ∧ stat fs parent = Some (Dir true) ∧
     isdir_path fs p = false ∧ body "" = Returned text ∧
     Atomicwrites.atomic_write_path p body fs = (<[p := File text]> fs, Returned tt))
  ∨ (∃ e, Atomicwrites.atomic_write_path p body fs = (fs, Raised e) ∧
       (is_OSError e = true ∨ body "" = Raised e) ∧
       ¬ (∃ c parent text,
            p = c :: parent ∧ stat fs parent = Some (Dir true) ∧
            isdir_path fs p = false ∧ body "" = Returned text)).
Proof.
  unfold Atomicwrites.atomic_write_path.
  destruct p as [|c parent].
  { right. eexists. split; [done|]. split; [by left|]. by intros (? & ? & ? & ? & _). }
  destruct (stat fs parent) as [[?|[]]|] eqn:Hparent;
    try (right; eexists; split; [done|]; split; [by left|];
         intros (? & ? & ? & [= <- <-] & Hs & _); congruence).
  destruct (body "") as [text|e] eqn:Hbody.
  - unfold isdir_path. cbn [stat].
    destruct (fs !! (c :: parent)) as [[?|?]|] eqn:Hp.
    + left. by exists c, parent, text.
    + right. eexists. split; [done|]. split; [by left|].
      by intros (? & ? & ? & _ & _ & ? & _).
    + left. by exists c, parent, text.
  - right. exists e. split; [done|]. split; [by right|].
    by intros (? & ? & ? & _ & _ & _ & ?).
Qed.

Section More.
Variable version : string.
Local Abbreviation save := (save_df_as_csv version).
Local Abbreviation header_text := (Utils.header_text version).

Lemma to_csv_call_detail frame f kwargs :
  (kwargs_accepted kwargs ∧ ∃ text, to_csv_call frame f kwargs = Returned text)
  ∨ (¬ kwargs_accepted kwargs ∧ ∃ msg, to_csv_call frame f kwargs = Raised (TypeError msg)).
Proof.
  unfold to_csv_call, Pandas.to_csv, kwargs_accepted.
  destruct (kw_na_rep kwargs); [right; split; [by intros [? _]|by eexists]|].
  destruct (Nat.eqb_spec (String.length (default "," (kw_sep kwargs))) 1) as [Hlen|Hlen].
  - left. split; [done|by eexists].
  - right. split; [by intros [_ ?]|by eexists].
Qed.

(** All the ways through [save_df_as_csv] on a frame with rows: after
    [create_dir], either the file is put at the destination, or the tree is
    left as [create_dir] left it and the empty string is returned. *)
Lemma save_frame_detail df frame path filename comment kwargs w :
  nonempty_frame df = Some frame →
  ∃ w1 b, create_dir path w = (w1, Returned b) ∧ extends (fs w) (fs w1) ∧
    ((b = true ∧ path ≠ "" ∧
      destination_free (fs w1) (path_join path filename) ∧ kwargs_accepted kwargs ∧
      ∃ p text out,
        resolve (path_join path filename) = Some p ∧
        save df path filename comment kwargs w =
          (World (<[p := File text]> (fs w1)) out (clock w),
           Returned (path_join path filename)))
     ∨ (¬ (b = true ∧ destination_free (fs w1) (path_join path filename) ∧
           kwargs_accepted kwargs) ∧
        ∃ out, save df path filename comment kwargs w =
                 (World (fs w1) out (clock w), Returned ""))).
Proof.
  intros Hdf.
  destruct (create_dir_cases path w)
    as [(fs1 & q & Hrun & Hq & Hdir & Hext & Hcreate)
       |(fs1 & e & Hrun & Hexc & Hext & Hcreate)].
  2:{ eexists _, false. split; [done|]. split; [done|]. right.
      split; [by intros [? _]|]. eexists.
      by apply (save_not_created version df frame path filename comment kwargs w _ Hdf). }
  eexists _, true. split; [done|]. split; [done|].
  destruct (resolve (path_join path filename)) as [p|] eqn:Hp.
  2:{ right. split.
      - intros (_ & (c & parent & Hres & _) & _). congruence.
      - eexists.
        by rewrite (save_no_destination version df frame path filename comment kwargs
                      w _ Hdf Hcreate Hp). }
  rewrite (save_destination version df frame path filename comment kwargs w _ p
             Hdf Hcreate Hp).
  cbn [fs stdout clock].
  destruct (atomic_write_path_detail p
              (λ f, to_csv_call frame (f +:+ header_text (clock w) comment) kwargs) fs1)
    as [(c & parent & text & -> & Hparent & Hnodir & Hbody & ->)
       |(e & -> & He & Hnot)].
  - left. split; [done|]. split; [by eapply resolve_nonempty|].
    split; [by exists c, parent|]. split.
    + destruct (to_csv_call_detail frame ("" +:+ header_text (clock w) comment) kwargs)
        as [[Hacc _]|[_ [msg Hbad]]]; [done|]. cbn beta in Hbody. congruence.
    + by eexists _, _, _.
  - right. split.
    + intros (_ & (c & parent & Hres & Hparent & Hnodir) & Hacc).
      apply Hnot.
      destruct (to_csv_call_detail frame ("" +:+ header_text (clock w) comment) kwargs)
        as [[_ [text Hok]]|[Hbad _]]; [|done].
      exists c, parent, text. split; [congruence|]. split; [done|].
      split; [congruence|done].
    + assert (is_Exception e = true) as ->.
      { destruct He as [Hos|Hbody]; [by apply is_OSError_Exception|].
        cbn beta in Hbody.
        destruct (to_csv_call_detail frame ("" +:+ header_text (clock w) comment) kwargs)
          as [[_ [text Hok]]|[_ [msg Hbad]]]; [congruence|].
        rewrite Hbad in Hbody. by injection Hbody as <-. }
      by eexists.
Qed.

(** A file is still what it was after [save_df_as_csv], unless it is at the
    destination. *)
Lemma save_other_files df path filename comment kwargs w q text :
  resolve (path_join path filename) ≠ Some q →
  fs w !! q = Some (File text) ↔
  fs (save df path filename comment kwargs w).1 !! q = Some (File text).
Proof.
  intros Hq. destruct (nonempty_frame df) as [frame|] eqn:Hdf.
  2:{ by rewrite (save_no_frame version df path filename comment kwargs w Hdf). }
  destruct (save_frame_detail df frame path filename comment kwargs w Hdf)
    as (w1 & b & _ & Hext & [(_ & _ & _ & _ & p & text' & out & Hp & ->)|(_ & out & ->)]);
    simpl; rewrite (extends_same_files _ _ Hext q text); [|done].
  rewrite lookup_insert_ne; [done|]. intros ->. congruence.
Qed.

Lemma create_dir_well_formed path w w1 b :
  create_dir path w = (w1, Returned b) → well_formed (fs w) → well_formed (fs w1).
Proof.
  intros Hcreate Hwf.
  assert (∀ fs' r, makedirs_fs path (fs w) = (fs', r) → well_formed fs') as Hkeep.
  { unfold makedirs_fs. intros fs' r. destruct (resolve path) as [p|].
    - intros Hrun. by eapply well_formed_makedirs.
    - unfold raise. by intros [= <- <-]. }
  destruct (create_dir_cases path w)
    as [(fs' & p & Hrun & _ & _ & _ & Heq)|(fs' & e & Hrun & _ & _ & Heq)];
    rewrite Heq in Hcreate; injection Hcreate as <- <-; by eapply Hkeep.
Qed.

(** X12. A caller cannot change the sentinel.  When [na_rep] is among the
    keyword arguments, whatever else the call is given, [save_df_as_csv]
    returns the empty string and every regular file is as it was: [to_csv]
    is called with [na_rep] twice, which is a [TypeError], and the error is
    caught. *)
Theorem save_rejects_na_rep df path filename comment kwargs w sentinel :
  kw_na_rep kwargs = Some sentinel →
  ∃ w', save df path filename comment kwargs w = (w', Returned "") ∧
        same_files (fs w) (fs w').
Proof.
  intros Hna. destruct (nonempty_frame df) as [frame|] eqn:Hdf.
  2:{ rewrite (save_no_frame version df path filename comment kwargs w Hdf).
      eexists. split; [done|]. apply extends_same_files, extends_refl. }
  destruct (save_frame_detail df frame path filename comment kwargs w Hdf)
    as (w1 & b & _ & Hext & [(_ & _ & _ & [Hnone _] & _)|(_ & out & ->)]);
    [congruence|].
  eexists. split; [done|]. by apply extends_same_files.
Qed.




(** X16. [save_df_as_csv] keeps the tree well formed: after the call, as
    before it, whatever has a name lies in a directory.  In particular it
    never puts a file on top of a directory, nor under a regular file. *)
Theorem save_keeps_tree df path filename comment kwargs w :
  well_formed (fs w) →
  well_formed (fs (save df path filename comment kwargs w).1).
Proof.
  intros Hwf. destruct (nonempty_frame df) as [frame|] eqn:Hdf.
  2:{ by rewrite (save_no_frame version df path filename comment kwargs w Hdf). }
  destruct (save_frame_detail df frame path filename comment kwargs w Hdf)
    as (w1 & b & Hcreate & _ &
        [(_ & _ & (c & parent & Hres & Hparent & Hnodir) & _ & p & text & out & Hp & ->)
        |(_ & out & ->)]);
    pose proof (create_dir_well_formed path w w1 b Hcreate Hwf) as Hwf1;
    simpl; [|done].
  assert (p = c :: parent) as -> by congruence.
  intros c' p' Hsome.
  assert (∀ q, q ≠ c :: parent → isdir_path (fs w1) q = true →
          isdir_path (<[c :: parent := File text]> (fs w1)) q = true) as Hkeep.
  { intros q Hq. unfold isdir_path. destruct q as [|cq q']; [done|].
    simpl. by rewrite lookup_insert_ne. }
  destruct (decide (c' :: p' = c :: parent)) as [[= -> ->]|Hne].
  - apply Hkeep.
    + intros Heq. apply (f_equal length) in Heq. simpl in Heq. lia.
    + unfold isdir_path. by rewrite Hparent.
  - rewrite lookup_insert_ne in Hsome by done.
    apply Hkeep; [|by eapply Hwf1].
    intros ->. apply Hwf1 in Hsome. congruence.
Qed.
End More.
End SaveMore.

Module SaveMoreWitnesses.
Import Os Utils CreateDirMore SaveMore.

Lemma save_rejects_na_rep_witness :
  ∃ w', save_df_as_csv "1.2" (PyDataFrame snps) "out" "snps.csv" ""
          (Kwargs None (Some "NA") None None) guarded = (w', Returned "") ∧
        same_files (fs guarded) (fs w').
Proof.
  apply (save_rejects_na_rep "1.2" (PyDataFrame snps) "out" "snps.csv" ""
           (Kwargs None (Some "NA") None None) guarded "NA").
  reflexivity.
Defined.




Lemma save_keeps_tree_witness :
  well_formed
    (fs (save_df_as_csv "1.2" (PyDataFrame snps) "out" "snps.csv" "" no_kwargs guarded).1).
Proof.
  apply (save_keeps_tree "1.2" (PyDataFrame snps) "out" "snps.csv" "" no_kwargs guarded).
  apply guarded_well_formed.
Defined.
End SaveMoreWitnesses.
